(** * Samurai identifier splitting (spiral/samurai.py)

    A shallow embedding of [samurai_split], [same_case_split], [rescale],
    [score] and the affix tests of spiral/samurai.py, and the properties of
    the splitting algorithm proved on it.

    Modelling choices.
    - A Python [str] is a [string]; identifiers are ASCII, so [len] is
      [String.length] and [str.lower] maps the letters A-Z to a-z.  What
      [str.lower] does outside ASCII is shown on the module [Unicode],
      which has [same_case_split] over code points.
    - Python numbers (corpus frequencies, scores, the results of
      [math.pow]) are the carrier of the class [PyNumber]: a type with
      integer literals, addition, the comparison [<] and the two powers
      the code takes.  The class states only the order laws the proofs
      use, so every theorem holds for any NaN-free arithmetic; the module
      [QNum] gives a computable instance over the rationals.  Numbers are
      finite and in the range of a float: the [OverflowError] of
      [math.pow] on a larger integer and its results on infinities are
      outside the model.
    - The collaborators that are imported from other modules
      ([word_frequency], the enchant dictionary, [simple_split]) are the
      fields of the class [Oracles].
    - Exceptions and recursion depth are explicit: a computation returns
      an [outcome], and [same_case_split_fuel] counts nested calls.
    - Logging has no effect on the result and is left out. *)

From Stdlib Require Import String Ascii List Bool Arith ZArith QArith Lia.
Import ListNotations.
Local Close Scope Q_scope.
Local Open Scope string_scope.
Local Open Scope nat_scope.

(** ** Strings *)

(** [len(s)] *)
Definition len (s : string) : nat := String.length s.

(** The first [n] characters of [s] (all of [s] when it is shorter). *)
Fixpoint take (n : nat) (s : string) : string :=
  match n, s with
  | S n', String c s' => String c (take n' s')
  | _, _ => EmptyString
  end.

(** [s] without its first [n] characters. *)
Fixpoint drop (n : nat) (s : string) : string :=
  match n, s with
  | S n', String _ s' => drop n' s'
  | _, _ => s
  end.

(** The slice [s[lo:hi]] for indices [0 <= lo], [0 <= hi]. *)
Definition slice (lo hi : nat) (s : string) : string :=
  take (hi - lo) (drop lo s).

(** The slice [s[lo:]]. *)
Definition slice_from (lo : nat) (s : string) : string := drop lo s.

Definition is_upper (c : ascii) : bool :=
  (65 <=? nat_of_ascii c) && (nat_of_ascii c <=? 90).

Definition is_lower (c : ascii) : bool :=
  (97 <=? nat_of_ascii c) && (nat_of_ascii c <=? 122).

Definition lower_char (c : ascii) : ascii :=
  if is_upper c then ascii_of_nat (nat_of_ascii c + 32) else c.

(** [s.lower()] for an ASCII string ([Unicode.lower] beyond). *)
Fixpoint lower (s : string) : string :=
  match s with
  | EmptyString => EmptyString
  | String c s' => String (lower_char c) (lower s')
  end.

(** Every character of [s] is an ASCII character. *)
Fixpoint is_ascii (s : string) : bool :=
  match s with
  | EmptyString => true
  | String c s' => (nat_of_ascii c <? 128) && is_ascii s'
  end.

(** [x in l] for a list of strings. *)
Definition str_in (x : string) (l : list string) : bool :=
  existsb (String.eqb x) l.

(** The concatenation of a list of tokens. *)
Definition concat_tokens (l : list string) : string := String.concat EmptyString l.

(** [re.search(r'[A-Z][a-z]', s)]: the start of the leftmost match. *)
Fixpoint re_search_upper_lower (s : string) : option nat :=
  match s with
  | EmptyString => None
  | String c s' =>
      match s' with
      | EmptyString => None
      | String d _ =>
          if is_upper c && is_lower d then Some 0
          else option_map S (re_search_upper_lower s')
      end
  end.

(** [s[i]] is in [A-Z] and [s[i+1]] is in [a-z]: the pattern
    [[A-Z][a-z]] matches at index [i]. *)
Definition transition_at (s : string) (i : nat) : bool :=
  match String.get i s, String.get (S i) s with
  | Some c, Some d => is_upper c && is_lower d
  | _, _ => false
  end.

(** ** Numbers *)

Class PyNumber : Type := {
  num : Type;
  (** an integer literal *)
  of_Z : Z -> num;
  (** [x + y] *)
  add : num -> num -> num;
  (** [x < y] *)
  ltb : num -> num -> bool;
  (** [math.pow(x, 1.0/2)] for [x >= 0] *)
  pow_half : num -> num;
  (** [math.pow(x, 1.0/2.5)] for [x >= 0] *)
  pow_two_fifths : num -> num;
  ltb_irrefl : forall x, ltb x x = false;
  ltb_trans : forall x y z, ltb x y = true -> ltb y z = true -> ltb x z = true;
  of_Z_ltb : forall a b, ltb (of_Z a) (of_Z b) = (a <? b)%Z;
  (** a power of zero is zero *)
  pow_half_zero : forall x,
    ltb x (of_Z 0) = false -> ltb (of_Z 0) x = false ->
    ltb (pow_half x) (of_Z 0) = false /\ ltb (of_Z 0) (pow_half x) = false;
  pow_two_fifths_zero : forall x,
    ltb x (of_Z 0) = false -> ltb (of_Z 0) x = false ->
    ltb (pow_two_fifths x) (of_Z 0) = false /\
    ltb (of_Z 0) (pow_two_fifths x) = false
}.

(** ** Exceptions and results *)

Inductive exn : Type :=
| ValueError   (* math.pow: math domain error *)
| IndexError.  (* list index out of range *)

Inductive outcome (A : Type) : Type :=
| Ret (a : A)
| Raise (e : exn)
| OutOfFuel.

Arguments Ret {A} a.
Arguments Raise {A} e.
Arguments OutOfFuel {A}.

Definition bind {A B : Type} (c : outcome A) (k : A -> outcome B) : outcome B :=
  match c with
  | Ret a => k a
  | Raise e => Raise e
  | OutOfFuel => OutOfFuel
  end.

(** The result of a computation, mapped through [f]. *)
Definition outcome_map {A B : Type} (f : A -> B) (c : outcome A) : outcome B :=
  match c with
  | Ret a => Ret (f a)
  | Raise e => Raise e
  | OutOfFuel => OutOfFuel
  end.

Notation "x <- c ;; k" := (bind c (fun x => k))
  (at level 61, c at next level, right associativity).

(** [while i < n: st = body(i, st); i += 1], run for at most [gas] rounds. *)
Fixpoint while_lt {St : Type} (body : nat -> St -> outcome St)
    (n gas i : nat) (st : St) : outcome St :=
  if i <? n then
    match gas with
    | 0 => OutOfFuel
    | S gas' => st' <- body i st ;; while_lt body n gas' (S i) st'
    end
  else Ret st.

(** [for x in l: acc = acc + f(x)] *)
Fixpoint for_each {A B : Type} (f : A -> outcome (list B)) (l : list A)
    (acc : list B) : outcome (list B) :=
  match l with
  | [] => Ret acc
  | x :: l' => r <- f x ;; for_each f l' (acc ++ r)
  end.

(** The rounds of a loop over the indices of [l], in order. *)
Fixpoint rounds {St : Type} (body : nat -> St -> outcome St) (l : list nat)
    (st : St) : outcome St :=
  match l with
  | [] => Ret st
  | i :: l' => st' <- body i st ;; rounds body l' st'
  end.

(** ** Global constants *)

Definition prefix_list : list string :=
  ["afro"; "ambi"; "amphi"; "ana"; "anglo"; "apo"; "astro"; "bi"; "bio";
   "circum"; "cis"; "co"; "col"; "com"; "con"; "contra"; "cor"; "cryo";
   "crypto"; "de"; "de"; "demi"; "di"; "dif"; "dis"; "du"; "duo"; "eco";
   "electro"; "em"; "en"; "epi"; "euro"; "ex"; "franco"; "geo"; "hemi";
   "hetero"; "homo"; "hydro"; "hypo"; "ideo"; "idio"; "il"; "im"; "infra";
   "inter"; "intra"; "ir"; "iso"; "macr"; "mal"; "maxi"; "mega"; "megalo";
   "micro"; "midi"; "mini"; "mis"; "mon"; "multi"; "neo"; "omni"; "paleo";
   "para"; "ped"; "peri"; "poly"; "pre"; "preter"; "proto"; "pyro"; "re";
   "retro"; "semi"; "socio"; "supra"; "sur"; "sy"; "syl"; "sym"; "syn";
   "tele"; "trans"; "tri"; "twi"; "ultra"; "un"; "uni"].

Definition suffix_list : list string :=
  ["a"; "ac"; "acea"; "aceae"; "acean"; "aceous"; "ade"; "aemia"; "agogue";
   "aholic"; "al"; "ales"; "algia"; "amine"; "ana"; "anae"; "ance"; "ancy";
   "androus"; "andry"; "ane"; "ar"; "archy"; "ard"; "aria"; "arian";
   "arium"; "ary"; "ase"; "athon"; "ation"; "ative"; "ator"; "atory";
   "biont"; "biosis"; "cade"; "caine"; "carp"; "carpic"; "carpous"; "cele";
   "cene"; "centric"; "cephalic"; "cephalous"; "cephaly"; "chory";
   "chrome"; "cide"; "clast"; "clinal"; "cline"; "coccus"; "coel"; "coele";
   "colous"; "cracy"; "crat"; "cratic"; "cratical"; "cy"; "cyte"; "derm";
   "derma"; "dermatous"; "dom"; "drome"; "dromous"; "eae"; "ectomy"; "ed";
   "ee"; "eer"; "ein"; "eme"; "emia"; "en"; "ence"; "enchyma"; "ency";
   "ene"; "ent"; "eous"; "er"; "ergic"; "ergy"; "es"; "escence"; "escent";
   "ese"; "esque"; "ess"; "est"; "et"; "eth"; "etic"; "ette"; "ey";
   "facient"; "fer"; "ferous"; "fic"; "fication"; "fid"; "florous";
   "foliate"; "foliolate"; "fuge"; "ful"; "fy"; "gamous"; "gamy"; "gen";
   "genesis"; "genic"; "genous"; "geny"; "gnathous"; "gon"; "gony";
   "grapher"; "graphy"; "gyne"; "gynous"; "gyny"; "ia"; "ial"; "ian";
   "iana"; "iasis"; "iatric"; "iatrics"; "iatry"; "ibility"; "ible"; "ic";
   "icide"; "ician"; "ick obsolete"; "ics"; "idae"; "ide"; "ie"; "ify";
   "ile"; "ina"; "inae"; "ine"; "ineae"; "ing"; "ini"; "ious"; "isation";
   "ise"; "ish"; "ism"; "ist"; "istic"; "istical"; "istically"; "ite";
   "itious"; "itis"; "ity"; "ium"; "ive"; "ization"; "ize"; "kinesis";
   "kins"; "latry"; "lepry"; "ling"; "lite"; "lith"; "lithic"; "logue";
   "logist"; "logy"; "ly"; "lyse"; "lysis"; "lyte"; "lytic"; "lyze";
   "mancy"; "mania"; "meister"; "ment"; "merous"; "metry"; "mo"; "morph";
   "morphic"; "morphism"; "morphous"; "mycete"; "mycetes"; "mycetidae";
   "mycin"; "mycota"; "mycotina"; "ness"; "nik"; "nomy"; "odon"; "odont";
   "odontia"; "oholic"; "oic"; "oid"; "oidea"; "oideae"; "ol"; "ole";
   "oma"; "ome"; "ont"; "onym"; "onymy"; "opia"; "opsida"; "opsis"; "opsy";
   "orama"; "ory"; "ose"; "osis"; "otic"; "otomy"; "ous"; "para"; "parous";
   "pathy"; "ped"; "pede"; "penia"; "phage"; "phagia"; "phagous"; "phagy";
   "phane"; "phasia"; "phil"; "phile"; "philia"; "philiac"; "philic";
   "philous"; "phobe"; "phobia"; "phobic"; "phony"; "phore"; "phoresis";
   "phorous"; "phrenia"; "phyll"; "phyllous"; "phyceae"; "phycidae";
   "phyta"; "phyte"; "phytina"; "plasia"; "plasm"; "plast"; "plasty";
   "plegia"; "plex"; "ploid"; "pode"; "podous"; "poieses"; "poietic";
   "pter"; "rrhagia"; "rrhea"; "ric"; "ry"; "s"; "scopy"; "sepalous";
   "sperm"; "sporous"; "st"; "stasis"; "stat"; "ster"; "stome"; "stomy";
   "taxy"; "th"; "therm"; "thermal"; "thermic"; "thermy"; "thon"; "thymia";
   "tion"; "tome"; "tomy"; "tonia"; "trichous"; "trix"; "tron"; "trophic";
   "tropism"; "tropous"; "tropy"; "tude"; "ty"; "ular"; "ule"; "ure";
   "urgy"; "uria"; "uronic"; "urous"; "valent"; "virile"; "vorous"; "xor";
   "y"; "yl"; "yne"; "zoic"; "zoon"; "zygous"; "zyme"].

(** ** The splitter *)

Section Samurai.

Context {N : PyNumber}.

(** The functions samurai.py imports from its sibling modules and from
    enchant. *)
Class Oracles : Type := {
  (** [spiral.frequencies.word_frequency] *)
  word_frequency : string -> num;
  (** [_dictionary.check], for [_dictionary = enchant.Dict("en_US")] *)
  _dictionary_check : string -> bool;
  (** [spiral.simple_splitters.simple_split] *)
  simple_split : string -> list string
}.

Context {O : Oracles}.

(** [x > y] *)
Definition gtb (x y : num) : bool := ltb y x.

(** [x == y] on numbers *)
Definition num_eq (x y : num) : Prop := ltb x y = false /\ ltb y x = false.

(** [max(x, y)]: the first of the largest arguments. *)
Definition py_max (x y : num) : num := if gtb y x then y else x.

(** [math.pow(x, 1.0/2)] for a finite [x] in the range of a float: a
    negative base with a fractional exponent is a domain error. *)
Definition math_pow_half (x : num) : outcome num :=
  if ltb x (of_Z 0) then Raise ValueError else Ret (pow_half x).

(** [math.pow(x, 1.0/2.5)], likewise. *)
Definition math_pow_two_fifths (x : num) : outcome num :=
  if ltb x (of_Z 0) then Raise ValueError else Ret (pow_two_fifths x).

Definition in_dictionary (word : string) : bool :=
  _dictionary_check (lower word).

Definition is_prefix (s : string) : bool := str_in (lower s) prefix_list.

Definition is_suffix (s : string) : bool := str_in (lower s) suffix_list.

Definition score (w : string) : num :=
  let f := word_frequency w in
  if ltb f (of_Z 30) then of_Z 0 else f.

Definition rescale (token : string) (value : num) : outcome num :=
  if len token <=? 1 then Ret (of_Z 0)
  else if (len token <=? 4) && in_dictionary token then math_pow_half value
  else math_pow_two_fifths value.

(** The variables the scan of [same_case_split] updates. *)
Record scan_state : Type := {
  split : option (list string);
  max_score : num
}.

(** One round of the [while] loop of [same_case_split] at index [i];
    [rec] is [same_case_split] itself. *)
Definition scan_body (rec : string -> num -> outcome (list string))
    (s : string) (score_ns threshold : num) (n i : nat) (st : scan_state)
    : outcome scan_state :=
  let left := slice 0 i s in
  let right := slice i n s in
  let score_l := score left in
  let score_r := score right in
  let prefix := is_prefix left || is_suffix right in
  rl <- rescale left score_l ;;
  let to_split_l := gtb rl threshold in
  rr <- rescale right score_r ;;
  let to_split_r := gtb rr threshold in
  if negb prefix && to_split_l && to_split_r then
    if gtb (add score_l score_r) (max_score st) then
      Ret {| split := Some [left; right];
             max_score := add score_l score_r |}
    else Ret st
  else if negb prefix && to_split_l then
    tmp <- rec right score_ns ;;
    match tmp with
    | [] => Raise IndexError
    | t0 :: _ =>
        if negb (String.eqb t0 right) then
          Ret {| split := Some (left :: tmp); max_score := max_score st |}
        else Ret st
    end
  else Ret st.

(** [result = split if split else [s]] *)
Definition scan_result (s : string) (st : scan_state) : list string :=
  match split st with
  | Some (t :: ts) => t :: ts
  | _ => [s]
  end.

(** [same_case_split(s, score_ns)] with at most [fuel] nested calls. *)
Fixpoint same_case_split_fuel (fuel : nat) (s : string) (score_ns : num)
    : outcome (list string) :=
  match fuel with
  | 0 => OutOfFuel
  | S fuel' =>
      if len s <? 2 then Ret [s]
      else if (1 <? len s) && in_dictionary s then Ret [s]
      else
        let n := len s in
        let threshold := py_max (score s) score_ns in
        st <- while_lt
                (scan_body (same_case_split_fuel fuel') s score_ns threshold n)
                n n 0 {| split := None; max_score := of_Z (-1) |} ;;
        Ret (scan_result s st)
  end.

(** [same_case_split(s, score_ns)]: the nesting of calls never exceeds
    [len(s)], so this much fuel is enough. *)
Definition same_case_split (s : string) (score_ns : num)
    : outcome (list string) :=
  same_case_split_fuel (S (len s)) s score_ns.

(** The default value of the parameter [score_ns] is 0.0000005; every
    theorem below holds for any value of it. *)

(** The body of the first loop of [samurai_split]: the [parts] of one
    segment [s]. *)
Definition case_transition_parts (s : string) : outcome (list string) :=
  match re_search_upper_lower s with
  | None => Ret [s]
  | Some i =>
      let camel_score :=
        if 0 <? i then score (slice_from i s) else score s in
      let alt := slice_from (i + 1) s in
      let alt_score := score alt in
      r <- rescale alt alt_score ;;
      if gtb camel_score r then
        if 0 <? i then Ret [slice 0 i s; slice_from i s] else Ret [s]
      else Ret [slice 0 (i + 1) s; slice_from (i + 1) s]
  end.

Definition samurai_split (identifier : string) : outcome (list string) :=
  splits <- for_each case_transition_parts (simple_split identifier) [] ;;
  for_each (fun token => same_case_split token (score token)) splits [].

Definition mixed_case_split (identifier : string) : outcome (list string) :=
  samurai_split identifier.

(** ** Derived notions used in the statements *)

(** [is_prefix(left) or is_suffix(right)], the variable [prefix] of the
    scan. *)
Definition is_affix (left right : string) : bool :=
  is_prefix left || is_suffix right.

(** [rescale(t, score(t)) > threshold], the variables [to_split_l] and
    [to_split_r] of the scan. *)
Definition to_split (threshold : num) (t : string) : bool :=
  match rescale t (score t) with
  | Ret r => gtb r threshold
  | _ => false
  end.

(** The condition of the first branch of the scan: [not prefix and
    to_split_l and to_split_r]. *)
Definition case1 (threshold : num) (left right : string) : bool :=
  negb (is_affix left right) && to_split threshold left
  && to_split threshold right.

(** The condition under which the [elif] branch runs: the first
    condition fails and [not prefix and to_split_l] holds. *)
Definition case2 (threshold : num) (left right : string) : bool :=
  negb (case1 threshold left right)
  && (negb (is_affix left right) && to_split threshold left).

(** The start state of the scan: [split = None], [max_score = -1]. *)
Definition scan_start : scan_state :=
  {| split := None; max_score := of_Z (-1) |}.

(** The pairs [(left, right)] the scan of [same_case_split(s, ...)] goes
    through, in order: what its loop logs round by round. *)
Definition examined_cuts (s : string) : outcome (list (string * string)) :=
  while_lt
    (fun i acc => Ret (acc ++ [(slice 0 i s, slice i (len s) s)])%list)
    (len s) (len s) 0 [].

(** The scan state of the lower-cased run. *)
Definition lower_state (st : scan_state) : scan_state :=
  {| split := option_map (map lower) (split st);
     max_score := max_score st |}.

(** No boundary of the token list [r] has a listed prefix as the token
    before it or a listed suffix as the text after it. *)
Fixpoint no_affix_cuts (r : list string) : Prop :=
  match r with
  | [] => True
  | t :: rest =>
      (rest <> [] ->
       is_prefix t = false /\ is_suffix (concat_tokens rest) = false)
      /\ no_affix_cuts rest
  end.

(** [r] splits [s] in two or more tokens of two or more characters,
    at boundaries that are not suppressed. *)
Definition proper_split (s : string) (r : list string) : Prop :=
  concat_tokens r = s /\ 2 <= List.length r /\
  Forall (fun t => 2 <= len t) r /\ no_affix_cuts r.

End Samurai.

(** ** A computable number model: rationals with rounded roots *)

Module QNum.

(** [x < y] on rationals. *)
Definition qlt (x y : Q) : bool :=
  (Qnum x * QDen y <? Qnum y * QDen x)%Z.

(** Roots are rounded down to a multiple of [2^-32]. *)
Definition scale_bits : Z := 32.

(** The largest [r] in [lo, hi) with [r^5 <= n], by bisection. *)
Fixpoint root5_bisect (gas : nat) (lo hi n : Z) : Z :=
  match gas with
  | 0%nat => lo
  | S gas' =>
      if (hi - lo <=? 1)%Z then lo
      else
        let mid := ((lo + hi) / 2)%Z in
        if (mid ^ 5 <=? n)%Z then root5_bisect gas' mid hi n
        else root5_bisect gas' lo mid n
  end.

(** The integer fifth root of [n] ([0] for [n <= 0]). *)
Definition iroot5 (n : Z) : Z :=
  if (n <=? 0)%Z then 0%Z
  else root5_bisect (Z.to_nat (Z.log2 n) + 2) 0 (2 ^ (Z.log2 n / 5 + 1)) n.

(** [sqrt x], rounded down. *)
Definition qpow_half (x : Q) : Q :=
  Qmake (Z.sqrt (Qnum x * QDen x * 4 ^ scale_bits))
        (Qden x * Z.to_pos (2 ^ scale_bits)).

(** [x^(2/5)], rounded down. *)
Definition qpow_two_fifths (x : Q) : Q :=
  Qmake (iroot5 (Qnum x ^ 2 * QDen x ^ 3 * 2 ^ (5 * scale_bits)))
        (Qden x * Z.to_pos (2 ^ scale_bits)).

#[export] Instance QNumber : PyNumber.
Proof.
  assert (zero_num : forall x : Q,
            qlt x (inject_Z 0) = false -> qlt (inject_Z 0) x = false ->
            Qnum x = 0%Z).
  { intros x. unfold qlt; cbn. rewrite !Z.mul_1_r.
    intros H1 H2. apply Z.ltb_ge in H1, H2. lia. }
  assert (zero_eq : forall (n : Z) (d : positive), n = 0%Z ->
            qlt (Qmake n d) (inject_Z 0) = false /\
            qlt (inject_Z 0) (Qmake n d) = false).
  { intros n d ->. split; reflexivity. }
  refine {| num := Q;
            of_Z := inject_Z;
            add := Qplus;
            ltb := qlt;
            pow_half := qpow_half;
            pow_two_fifths := qpow_two_fifths |}.
  - intros x. unfold qlt. apply Z.ltb_irrefl.
  - intros x y z Hxy Hyz. unfold qlt in *.
    apply Z.ltb_lt. apply Z.ltb_lt in Hxy, Hyz.
    exact (Qlt_trans x y z Hxy Hyz).
  - intros a b. unfold qlt; cbn. now rewrite !Z.mul_1_r.
  - intros x H1 H2. apply zero_eq. unfold qpow_half.
    rewrite (zero_num x H1 H2). reflexivity.
  - intros x H1 H2. apply zero_eq. unfold qpow_two_fifths.
    rewrite (zero_num x H1 H2). reflexivity.
Defined.

End QNum.

(** ** A small configuration for concrete runs *)

Module Example.

Import QNum.

(** A frequency table: six entries of count 100, looked up without
    regard to case. *)
Definition freq_table (w : string) : Q :=
  let w := lower w in
  if String.eqb w "ab" || String.eqb w "cxqfg" || String.eqb w "abc"
     || String.eqb w "xq" || String.eqb w "fg" || String.eqb w "un"
  then inject_Z 100 else inject_Z 0.

(** The number 0. *)
Definition zero : @num QNumber := inject_Z 0.

(** The number 100. *)
Definition hundred : @num QNumber := inject_Z 100.

(** A dictionary with the words [max] and [ax]. *)
Definition word_list (w : string) : bool := String.eqb w "max" || String.eqb w "ax".

(** Identifiers without delimiters or digits are one segment. *)
Definition one_segment (s : string) : list string :=
  if len s =? 0 then [] else [s].

#[export] Instance ExampleOracles : @Oracles QNumber :=
  {| word_frequency := freq_table;
     _dictionary_check := word_list;
     simple_split := one_segment |}.

End Example.

(** ** The splitter over Unicode code points

    [str.lower] follows Unicode: the lower-casing of U+0130 (capital I
    with dot above) is the two code points U+0069 U+0307, so outside
    ASCII it can change the length of a string.  This module is
    [same_case_split] and the functions it calls once more, line by line
    as above, with a [str] as the list of its code points. *)

Module Unicode.

(** A Python [str]: its code points. *)
Definition str : Type := list N.

(** The code points of an ASCII literal. *)
Fixpoint of_ascii (s : string) : str :=
  match s with
  | EmptyString => []
  | String c s' => N_of_ascii c :: of_ascii s'
  end.

(** [len(s)] *)
Definition len (s : str) : nat := List.length s.

(** The slice [s[lo:hi]] for indices [0 <= lo], [0 <= hi]. *)
Definition slice (lo hi : nat) (s : str) : str :=
  firstn (hi - lo) (skipn lo s).

(** [a == b] on strings. *)
Fixpoint str_eqb (a b : str) : bool :=
  match a, b with
  | [], [] => true
  | x :: a', y :: b' => N.eqb x y && str_eqb a' b'
  | _, _ => false
  end.

(** The lower-casing of one code point: [A-Z] to [a-z], U+0130 to
    U+0069 U+0307; the other code points of the runs below (lower-case
    ASCII letters and U+0307) have no lower-casing of their own. *)
Definition lower_char (c : N) : list N :=
  if (65 <=? c)%N && (c <=? 90)%N then [(c + 32)%N]
  else if (c =? 304)%N then [105%N; 775%N]
  else [c].

(** [s.lower()] *)
Definition lower (s : str) : str := flat_map lower_char s.

(** [x in l] for a list of strings. *)
Definition str_in (x : str) (l : list str) : bool := existsb (str_eqb x) l.

Section Splitter.

Context {N : PyNumber}.

(** [word_frequency] and [_dictionary.check] on code points. *)
Class Oracles : Type := {
  word_frequency : str -> num;
  _dictionary_check : str -> bool
}.

Context {O : Oracles}.

Definition in_dictionary (word : str) : bool :=
  _dictionary_check (lower word).

Definition is_prefix (s : str) : bool :=
  str_in (lower s) (map of_ascii prefix_list).

Definition is_suffix (s : str) : bool :=
  str_in (lower s) (map of_ascii suffix_list).

Definition score (w : str) : num :=
  let f := word_frequency w in
  if ltb f (of_Z 30) then of_Z 0 else f.

Definition rescale (token : str) (value : num) : outcome num :=
  if len token <=? 1 then Ret (of_Z 0)
  else if (len token <=? 4) && in_dictionary token then math_pow_half value
  else math_pow_two_fifths value.

(** The variables the scan of [same_case_split] updates. *)
Record scan_state : Type := {
  split : option (list str);
  max_score : num
}.

(** One round of the [while] loop of [same_case_split] at index [i]. *)
Definition scan_body (rec : str -> num -> outcome (list str))
    (s : str) (score_ns threshold : num) (n i : nat) (st : scan_state)
    : outcome scan_state :=
  let left := slice 0 i s in
  let right := slice i n s in
  let score_l := score left in
  let score_r := score right in
  let prefix := is_prefix left || is_suffix right in
  rl <- rescale left score_l ;;
  let to_split_l := gtb rl threshold in
  rr <- rescale right score_r ;;
  let to_split_r := gtb rr threshold in
  if negb prefix && to_split_l && to_split_r then
    if gtb (add score_l score_r) (max_score st) then
      Ret {| split := Some [left; right];
             max_score := add score_l score_r |}
    else Ret st
  else if negb prefix && to_split_l then
    tmp <- rec right score_ns ;;
    match tmp with
    | [] => Raise IndexError
    | t0 :: _ =>
        if negb (str_eqb t0 right) then
          Ret {| split := Some (left :: tmp); max_score := max_score st |}
        else Ret st
    end
  else Ret st.

(** [result = split if split else [s]] *)
Definition scan_result (s : str) (st : scan_state) : list str :=
  match split st with
  | Some (t :: ts) => t :: ts
  | _ => [s]
  end.

(** [same_case_split(s, score_ns)] with at most [fuel] nested calls. *)
Fixpoint same_case_split_fuel (fuel : nat) (s : str) (score_ns : num)
    : outcome (list str) :=
  match fuel with
  | 0 => OutOfFuel
  | S fuel' =>
      if len s <? 2 then Ret [s]
      else if (1 <? len s) && in_dictionary s then Ret [s]
      else
        let n := len s in
        let threshold := py_max (score s) score_ns in
        st <- while_lt
                (scan_body (same_case_split_fuel fuel') s score_ns threshold n)
                n n 0 {| split := None; max_score := of_Z (-1) |} ;;
        Ret (scan_result s st)
  end.

Definition same_case_split (s : str) (score_ns : num)
    : outcome (list str) :=
  same_case_split_fuel (S (len s)) s score_ns.

End Splitter.

(** The string [abİ]: [ab] followed by U+0130. *)
Definition ab_dotted_I : str := (of_ascii "ab" ++ [304%N])%list.

(** A frequency table with two entries of count 100, [ab] and [i̇]
    (U+0069 U+0307), looked up without regard to case. *)
Definition freq_table (w : str) : @num QNum.QNumber :=
  let w := lower w in
  if str_eqb w (of_ascii "ab") || str_eqb w [105%N; 775%N]
  then inject_Z 100 else inject_Z 0.

(** An empty dictionary. *)
Definition no_word (w : str) : bool := false.

#[global] Instance ExampleOracles : @Oracles QNum.QNumber :=
  {| word_frequency := freq_table;
     _dictionary_check := no_word |}.

End Unicode.
(** ** Facts about strings *)

Lemma take_drop (n : nat) (s : string) : (take n s ++ drop n s)%string = s.
Proof.
  revert s; induction n as [|n IH]; intros [|c s]; simpl; try reflexivity.
  now rewrite IH.
Qed.

Lemma len_take (n : nat) (s : string) : len (take n s) = Nat.min n (len s).
Proof.
  revert s; induction n as [|n IH]; intros [|c s]; simpl; try reflexivity.
  unfold len in IH. now rewrite IH.
Qed.

Lemma len_drop (n : nat) (s : string) : len (drop n s) = len s - n.
Proof.
  revert s; induction n as [|n IH]; intros [|c s]; simpl; try reflexivity.
  apply IH.
Qed.

Lemma take_all (n : nat) (s : string) : len s <= n -> take n s = s.
Proof.
  revert s; induction n as [|n IH]; intros [|c s] H; unfold len in *;
    simpl in *; try reflexivity; try lia.
  rewrite IH; [reflexivity | lia].
Qed.

Lemma len_app (a b : string) : len (a ++ b) = len a + len b.
Proof. induction a as [|c a IH]; simpl; [reflexivity | now rewrite IH]. Qed.

Lemma len_zero (s : string) : len s = 0 -> s = EmptyString.
Proof. destruct s; simpl; [reflexivity | discriminate]. Qed.

Lemma app_empty_r (s : string) : (s ++ EmptyString)%string = s.
Proof. induction s as [|c s IH]; simpl; [reflexivity | now rewrite IH]. Qed.

Lemma slice_0 (i : nat) (s : string) : slice 0 i s = take i s.
Proof. unfold slice. rewrite Nat.sub_0_r. reflexivity. Qed.

Lemma slice_to_end (i : nat) (s : string) : slice i (len s) s = drop i s.
Proof. unfold slice. apply take_all. rewrite len_drop. lia. Qed.

Lemma slice_split (i : nat) (s : string) :
  (slice 0 i s ++ slice i (len s) s)%string = s.
Proof. rewrite slice_0, slice_to_end. apply take_drop. Qed.

Lemma len_slice_left (i : nat) (s : string) :
  len (slice 0 i s) = Nat.min i (len s).
Proof. rewrite slice_0. apply len_take. Qed.

Lemma len_slice_right (i : nat) (s : string) :
  len (slice i (len s) s) = len s - i.
Proof. rewrite slice_to_end. apply len_drop. Qed.

Lemma concat_tokens_cons (t : string) (ts : list string) :
  concat_tokens (t :: ts) = (t ++ concat_tokens ts)%string.
Proof.
  unfold concat_tokens. destruct ts as [|u ts]; simpl.
  - now rewrite app_empty_r.
  - reflexivity.
Qed.

Lemma string_app_assoc (a b c : string) :
  ((a ++ b) ++ c)%string = (a ++ (b ++ c))%string.
Proof. induction a as [|x a IH]; simpl; [reflexivity | now rewrite IH]. Qed.

Lemma concat_tokens_app (l1 l2 : list string) :
  concat_tokens (l1 ++ l2) = (concat_tokens l1 ++ concat_tokens l2)%string.
Proof.
  induction l1 as [|t l1 IH].
  - reflexivity.
  - rewrite <- app_comm_cons, !concat_tokens_cons, IH.
    now rewrite string_app_assoc.
Qed.

Lemma app_same_len (a b c : string) :
  (a ++ b)%string = c -> len a = len c -> a = c.
Proof.
  intros H Hl. subst c. rewrite len_app in Hl.
  assert (Hb : b = EmptyString) by (apply len_zero; lia).
  subst b. now rewrite app_empty_r.
Qed.

Lemma lower_char_idem (c : ascii) : lower_char (lower_char c) = lower_char c.
Proof.
  destruct c as [[] [] [] [] [] [] [] []]; reflexivity.
Qed.

Lemma lower_idem (s : string) : lower (lower s) = lower s.
Proof.
  induction s as [|c s IH]; simpl; [reflexivity|].
  now rewrite lower_char_idem, IH.
Qed.

Lemma len_lower (s : string) : len (lower s) = len s.
Proof. induction s as [|c s IH]; simpl; [reflexivity | now rewrite IH]. Qed.

Lemma lower_take (n : nat) (s : string) : lower (take n s) = take n (lower s).
Proof.
  revert s; induction n as [|n IH]; intros [|c s]; simpl; try reflexivity.
  now rewrite IH.
Qed.

Lemma lower_drop (n : nat) (s : string) : lower (drop n s) = drop n (lower s).
Proof.
  revert s; induction n as [|n IH]; intros [|c s]; simpl; try reflexivity.
  apply IH.
Qed.

Lemma lower_slice (lo hi : nat) (s : string) :
  lower (slice lo hi s) = slice lo hi (lower s).
Proof. unfold slice. now rewrite lower_take, lower_drop. Qed.


Lemma is_ascii_lower (s : string) :
  is_ascii s = true -> is_ascii (lower s) = true.
Proof.
  induction s as [|c s IH]; simpl; [reflexivity|].
  intros H. apply andb_prop in H as [Hc Hs]. rewrite (IH Hs), andb_true_r.
  revert Hc. destruct c as [[] [] [] [] [] [] [] []];
    vm_compute; intros H; first [reflexivity | discriminate H].
Qed.
(** ** Facts about the loops *)

Lemma while_lt_rounds {St : Type} (body : nat -> St -> outcome St)
    (n gas i : nat) (st : St) :
  n - i <= gas ->
  while_lt body n gas i st = rounds body (seq i (n - i)) st.
Proof.
  revert i st; induction gas as [|gas IH]; intros i st Hgas; simpl.
  - destruct (i <? n) eqn:Hi.
    + apply Nat.ltb_lt in Hi. lia.
    + apply Nat.ltb_ge in Hi. replace (n - i) with 0 by lia. reflexivity.
  - destruct (i <? n) eqn:Hi.
    + apply Nat.ltb_lt in Hi.
      replace (n - i) with (S (n - S i)) by lia. simpl.
      destruct (body i st) as [st'| |]; simpl; try reflexivity.
      apply IH. lia.
    + apply Nat.ltb_ge in Hi. replace (n - i) with 0 by lia. reflexivity.
Qed.

Lemma rounds_invariant {St : Type} (P : St -> Prop)
    (body : nat -> St -> outcome St) (l : list nat) :
  (forall i st st', In i l -> P st -> body i st = Ret st' -> P st') ->
  forall st st', P st -> rounds body l st = Ret st' -> P st'.
Proof.
  induction l as [|i l IH]; intros Hstep st st' HP Hrun; simpl in Hrun.
  - now inversion Hrun; subst.
  - destruct (body i st) as [st1| |] eqn:Hb; simpl in Hrun; try discriminate.
    apply IH with (st := st1); auto.
    + intros j a b Hj. apply Hstep. now right.
    + eapply Hstep; eauto. now left.
Qed.

Lemma rounds_total {St : Type} (P : St -> Prop)
    (body : nat -> St -> outcome St) (l : list nat) :
  (forall i st, In i l -> P st -> exists st', body i st = Ret st' /\ P st') ->
  forall st, P st -> exists st', rounds body l st = Ret st' /\ P st'.
Proof.
  induction l as [|i l IH]; intros Hstep st HP; simpl.
  - eauto.
  - destruct (Hstep i st (or_introl eq_refl) HP) as (st1 & Hb & HP1).
    rewrite Hb; simpl. apply IH; auto.
    intros j a Hj. apply Hstep. now right.
Qed.

Lemma rounds_ext {St : Type} (body1 body2 : nat -> St -> outcome St)
    (l : list nat) :
  (forall i st, In i l -> body1 i st = body2 i st) ->
  forall st, rounds body1 l st = rounds body2 l st.
Proof.
  induction l as [|i l IH]; intros Hext st; simpl; [reflexivity|].
  rewrite (Hext i st (or_introl eq_refl)).
  destruct (body2 i st) as [st1| |]; simpl; try reflexivity.
  apply IH. intros j a Hj. apply Hext. now right.
Qed.

Lemma rounds_simulation {St : Type} (f : St -> St)
    (body1 body2 : nat -> St -> outcome St) (l : list nat) :
  (forall i st, In i l -> body2 i (f st) = outcome_map f (body1 i st)) ->
  forall st, rounds body2 l (f st) = outcome_map f (rounds body1 l st).
Proof.
  induction l as [|i l IH]; intros Hsim st; simpl; [reflexivity|].
  rewrite (Hsim i st (or_introl eq_refl)).
  destruct (body1 i st) as [st1| |]; simpl; try reflexivity.
  apply IH. intros j a Hj. apply Hsim. now right.
Qed.

Lemma for_each_concat (f : string -> outcome (list string))
    (l : list string) :
  (forall x, exists r, f x = Ret r /\ concat_tokens r = x) ->
  forall acc, exists r,
    for_each f l acc = Ret r /\
    concat_tokens r = (concat_tokens acc ++ concat_tokens l)%string.
Proof.
  intros Hf. induction l as [|x l IH]; intros acc; simpl.
  - exists acc. split; [reflexivity|]. cbn. now rewrite app_empty_r.
  - destruct (Hf x) as (r & -> & Hr). simpl.
    destruct (IH (acc ++ r)%list) as (r' & Hrun & Hr').
    exists r'. split; [exact Hrun|].
    rewrite Hr', concat_tokens_app, Hr, concat_tokens_cons.
    now rewrite string_app_assoc.
Qed.

Lemma re_search_bound (s : string) (i : nat) :
  re_search_upper_lower s = Some i -> i + 2 <= len s.
Proof.
  revert i; induction s as [|c s IH]; intros i H; simpl in H;
    [discriminate|].
  destruct s as [|d s']; [discriminate|].
  destruct (is_upper c && is_lower d).
  - inversion H; subst. unfold len; simpl. lia.
  - destruct (re_search_upper_lower (String d s')) as [j|] eqn:Hj;
      [|discriminate].
    inversion H; subst. specialize (IH j eq_refl).
    unfold len in *; simpl in *. lia.
Qed.

Lemma rounds_seq_invariant {St : Type} (P : nat -> St -> Prop)
    (body : nat -> St -> outcome St) (m : nat) :
  forall (a : nat) (st st' : St),
  P a st ->
  (forall i x y, a <= i < a + m -> P i x -> body i x = Ret y -> P (S i) y) ->
  rounds body (seq a m) st = Ret st' -> P (a + m) st'.
Proof.
  induction m as [|m IH]; intros a st st' Hstart Hstep Hrun; simpl in Hrun.
  - inversion Hrun; subst. now rewrite Nat.add_0_r.
  - destruct (body a st) as [st1| |] eqn:Hbody; simpl in Hrun;
      try discriminate.
    replace (a + S m) with (S a + m) by lia.
    apply IH with (st := st1); [| |exact Hrun].
    + apply (Hstep a st st1); [lia | exact Hstart | exact Hbody].
    + intros i x y Hi. apply Hstep. lia.
Qed.

Lemma for_each_forall {A B : Type} (Q : A -> Prop) (R : B -> Prop)
    (f : A -> outcome (list B)) (l : list A) :
  (forall x, Q x -> exists r, f x = Ret r /\ Forall R r) ->
  Forall Q l ->
  forall acc, Forall R acc ->
  exists r, for_each f l acc = Ret r /\ Forall R r.
Proof.
  intros Hf Hl. induction Hl as [|x l Hx Hl IH]; intros acc Hacc; simpl.
  - eauto.
  - destruct (Hf x Hx) as (r & -> & Hr). simpl.
    apply IH. apply Forall_app. now split.
Qed.

Lemma for_each_identity {A : Type} (f : A -> outcome (list A))
    (l : list A) :
  (forall x, In x l -> f x = Ret [x]) ->
  forall acc, for_each f l acc = Ret (acc ++ l)%list.
Proof.
  induction l as [|x l IH]; intros Hf acc; simpl.
  - now rewrite app_nil_r.
  - rewrite (Hf x (or_introl eq_refl)). simpl.
    rewrite IH by (intros y Hy; apply Hf; now right).
    now rewrite <- app_assoc.
Qed.

Lemma for_each_groups {A B : Type} (P : A -> list B -> Prop)
    (f : A -> outcome (list B)) (l : list A) :
  (forall x, exists r, f x = Ret r /\ P x r) ->
  forall acc, exists gs,
    for_each f l acc = Ret (acc ++ List.concat gs)%list /\ Forall2 P l gs.
Proof.
  intros Hf. induction l as [|x l IH]; intros acc; simpl.
  - exists []. simpl. rewrite app_nil_r. split; [reflexivity | constructor].
  - destruct (Hf x) as (r & -> & Hr). simpl.
    destruct (IH (acc ++ r)%list) as (gs & Hrun & Hgs).
    exists (r :: gs). simpl. rewrite Hrun, <- app_assoc.
    split; [reflexivity | now constructor].
Qed.

Lemma Forall2_concat_regroup {A B : Type} (Q : A -> B -> Prop)
    (gs : list (list A)) :
  forall ys, Forall2 Q (List.concat gs) ys ->
  exists gss, ys = List.concat gss /\ Forall2 (Forall2 Q) gs gss.
Proof.
  induction gs as [|g gs IH]; intros ys Hys; simpl in Hys.
  - inversion Hys; subst. exists []. split; [reflexivity | constructor].
  - apply Forall2_app_inv_l in Hys as (ys1 & ys2 & H1 & H2 & ->).
    destruct (IH ys2 H2) as (gss & -> & Hgss).
    exists (ys1 :: gss). split; [reflexivity | now constructor].
Qed.

Lemma concat_concat_map {A : Type} (lll : list (list (list A))) :
  List.concat (List.concat lll) = List.concat (map (@List.concat A) lll).
Proof.
  induction lll as [|ll lll IH]; simpl; [reflexivity|].
  now rewrite concat_app, IH.
Qed.

Lemma concat_tokens_flat (tss : list (list string)) :
  concat_tokens (List.concat tss) = concat_tokens (map concat_tokens tss).
Proof.
  induction tss as [|ts tss IH]; simpl; [reflexivity|].
  now rewrite concat_tokens_app, concat_tokens_cons, IH.
Qed.

Lemma len_concat_tokens_lower_bound (r : list string) :
  Forall (fun t => 2 <= len t) r -> 2 * List.length r <= len (concat_tokens r).
Proof.
  induction 1 as [|t r Ht Hr IH]; [simpl; lia|].
  rewrite concat_tokens_cons, len_app. simpl List.length. lia.
Qed.

Lemma transition_at_cons (c : ascii) (s : string) (i : nat) :
  transition_at (String c s) (S i) = transition_at s i.
Proof. reflexivity. Qed.

(** ** Facts about scores and the scan *)

Section SamuraiFacts.

Context {N : PyNumber} {O : Oracles}.

Lemma score_nonneg (w : string) : ltb (score w) (of_Z 0) = false.
Proof.
  unfold score.
  destruct (ltb (word_frequency w) (of_Z 30)) eqn:H30.
  - now rewrite of_Z_ltb.
  - destruct (ltb (word_frequency w) (of_Z 0)) eqn:H0; [|reflexivity].
    assert (H : ltb (of_Z 0) (of_Z 30) = true) by now rewrite of_Z_ltb.
    rewrite (ltb_trans _ _ _ H0 H) in H30. discriminate.
Qed.

Lemma threshold_nonneg (s : string) (score_ns : num) :
  ltb (py_max (score s) score_ns) (of_Z 0) = false.
Proof.
  unfold py_max, gtb.
  destruct (ltb (score s) score_ns) eqn:Hmax.
  - destruct (ltb score_ns (of_Z 0)) eqn:H0; [|reflexivity].
    pose proof (ltb_trans _ _ _ Hmax H0) as H.
    rewrite score_nonneg in H. discriminate.
  - apply score_nonneg.
Qed.

Lemma rescale_short (t : string) (v : num) :
  len t <= 1 -> rescale t v = Ret (of_Z 0).
Proof.
  intros H. unfold rescale.
  destruct (len t <=? 1) eqn:E; [reflexivity|].
  apply Nat.leb_gt in E. lia.
Qed.

Lemma rescale_score (t w : string) : exists v, rescale t (score w) = Ret v.
Proof.
  unfold rescale, math_pow_half, math_pow_two_fifths.
  rewrite score_nonneg.
  destruct (len t <=? 1); [eauto|].
  destruct ((len t <=? 4) && in_dictionary t); eauto.
Qed.

Lemma to_split_len (threshold : num) (t : string) :
  ltb threshold (of_Z 0) = false -> to_split threshold t = true ->
  2 <= len t.
Proof.
  intros Hth H. unfold to_split in H.
  destruct (Nat.le_gt_cases (len t) 1) as [Hle|Hgt]; [|lia].
  rewrite (rescale_short _ _ Hle) in H. unfold gtb in H.
  rewrite Hth in H. discriminate.
Qed.

Lemma no_affix_cuts_single (t : string) : no_affix_cuts [t].
Proof. simpl. split; [intros Hne; now contradiction Hne | exact I]. Qed.

Lemma no_affix_cuts_cons (t : string) (rest : list string) :
  is_prefix t = false -> is_suffix (concat_tokens rest) = false ->
  no_affix_cuts rest -> no_affix_cuts (t :: rest).
Proof. intros Hp Hs Hrest. simpl. auto. Qed.

(** The scan's round, branch by branch. *)
Lemma scan_body_eq (rec : string -> num -> outcome (list string))
    (s : string) (score_ns threshold : num) (n i : nat) (st : scan_state) :
  scan_body rec s score_ns threshold n i st =
  let left := slice 0 i s in
  let right := slice i n s in
  if case1 threshold left right then
    Ret (if gtb (add (score left) (score right)) (max_score st)
         then {| split := Some [left; right];
                 max_score := add (score left) (score right) |}
         else st)
  else if case2 threshold left right then
    tmp <- rec right score_ns ;;
    match tmp with
    | [] => Raise IndexError
    | t0 :: _ =>
        Ret (if negb (String.eqb t0 right)
             then {| split := Some (left :: tmp); max_score := max_score st |}
             else st)
    end
  else Ret st.
Proof.
  unfold scan_body, case2, case1, to_split, is_affix.
  destruct (rescale_score (slice 0 i s) (slice 0 i s)) as [rl ->].
  destruct (rescale_score (slice i n s) (slice i n s)) as [rr ->].
  cbn [bind].
  destruct (is_prefix (slice 0 i s) || is_suffix (slice i n s));
    destruct (gtb rl threshold); destruct (gtb rr threshold); cbn;
    try reflexivity.
  - destruct (gtb _ (max_score st)); reflexivity.
  - destruct (rec (slice i n s) score_ns) as [[|t0 ts]| |]; cbn;
      try reflexivity.
    destruct (String.eqb t0 (slice i n s)); reflexivity.
Qed.

(** What a run of [same_case_split] returns: the token itself, or a
    proper split of it. *)
Lemma same_case_split_fuel_result (fuel : nat) :
  forall (s : string) (score_ns : num) (r : list string),
  same_case_split_fuel fuel s score_ns = Ret r ->
  r = [s] \/ proper_split s r.
Proof.
  induction fuel as [|fuel IH]; intros s score_ns r Hrun; simpl in Hrun;
    [discriminate|].
  destruct (len s <? 2); [inversion Hrun; now left|].
  destruct ((1 <? len s) && in_dictionary s); [inversion Hrun; now left|].
  rewrite while_lt_rounds in Hrun by lia.
  rewrite Nat.sub_0_r in Hrun.
  set (th := py_max (score s) score_ns) in *.
  destruct (rounds _ _ _) as [st| |] eqn:Hscan; simpl in Hrun;
    try discriminate.
  inversion Hrun; subst r; clear Hrun.
  assert (Hinv : split st = None \/
                 exists r, split st = Some r /\ proper_split s r).
  { refine (rounds_invariant
              (fun st => split st = None \/
                         exists r, split st = Some r /\ proper_split s r)
              _ _ _ _ _ _ Hscan); [|now left].
    intros i st0 st1 Hi Hst0 Hbody.
    rewrite scan_body_eq in Hbody. cbv zeta in Hbody.
    destruct (case1 th _ _) eqn:H1.
    - inversion Hbody; subst st1; clear Hbody.
      destruct (gtb _ (max_score st0)); [|exact Hst0].
      right. eexists; split; [reflexivity|].
      unfold case1 in H1. apply andb_prop in H1 as [H1 Hr].
      apply andb_prop in H1 as [Ha Hl]. apply negb_true_iff in Ha.
      apply orb_false_elim in Ha as [Hp Hs].
      pose proof (threshold_nonneg s score_ns) as Hth. fold th in Hth.
      split; [|split; [|split]].
      + rewrite !concat_tokens_cons. cbn. rewrite app_empty_r.
        apply slice_split.
      + simpl; lia.
      + repeat constructor; eapply to_split_len; eauto.
      + apply no_affix_cuts_cons; auto using no_affix_cuts_single.
    - destruct (case2 th _ _) eqn:H2.
      + destruct (same_case_split_fuel fuel _ score_ns) as [tmp| |] eqn:Hrec;
          simpl in Hbody; try discriminate.
        destruct tmp as [|t0 ts]; [discriminate|].
        inversion Hbody; subst st1; clear Hbody.
        destruct (String.eqb t0 _) eqn:Heq; simpl; [exact Hst0|].
        right. eexists; split; [reflexivity|].
        apply IH in Hrec. destruct Hrec as [Hsame|Hproper].
        { inversion Hsame; subst. rewrite String.eqb_refl in Heq.
          discriminate. }
        unfold case2 in H2. apply andb_prop in H2 as [_ H2].
        apply andb_prop in H2 as [Ha Hl]. apply negb_true_iff in Ha.
        apply orb_false_elim in Ha as [Hp Hs].
        pose proof (threshold_nonneg s score_ns) as Hth. fold th in Hth.
        destruct Hproper as (Hc & Hn & Hall & Hcuts).
        split; [|split; [|split]].
        * rewrite concat_tokens_cons, Hc. apply slice_split.
        * simpl in *; lia.
        * constructor; [eapply to_split_len; eauto | exact Hall].
        * apply no_affix_cuts_cons; [exact Hp | now rewrite Hc | exact Hcuts].
      + inversion Hbody; subst; exact Hst0. }
  unfold scan_result.
  destruct Hinv as [-> | (r & -> & Hr)]; [now left|].
  destruct r as [|t ts]; [|now right].
  destruct Hr as (_ & Hn & _). simpl in Hn. lia.
Qed.

(** Every run with fuel for [len(s)] nested calls returns. *)
Lemma same_case_split_fuel_total (fuel : nat) :
  forall (s : string) (score_ns : num),
  0 < fuel -> len s <= fuel ->
  exists r, same_case_split_fuel fuel s score_ns = Ret r.
Proof.
  induction fuel as [|fuel IH]; intros s score_ns Hpos Hlen; [lia|].
  simpl.
  destruct (len s <? 2) eqn:Hshort; [eauto|].
  apply Nat.ltb_ge in Hshort.
  destruct ((1 <? len s) && in_dictionary s); [eauto|].
  rewrite while_lt_rounds by lia. rewrite Nat.sub_0_r.
  set (th := py_max (score s) score_ns).
  destruct (rounds_total (fun _ => True)
              (scan_body (same_case_split_fuel fuel) s score_ns th (len s))
              (seq 0 (len s)))
    with (st := {| split := None; max_score := of_Z (-1) |})
    as (st & -> & _);
    [|exact I|simpl; eauto].
  intros i st Hi _. apply in_seq in Hi.
  rewrite scan_body_eq. cbv zeta.
  destruct (case1 th _ _); [eauto|].
  destruct (case2 th _ _) eqn:H2; [|eauto].
  unfold case2 in H2. apply andb_prop in H2 as [_ H2].
  apply andb_prop in H2 as [_ Hl].
  apply to_split_len in Hl; [|apply threshold_nonneg].
  rewrite len_slice_left in Hl.
  destruct (IH (slice i (len s) s) score_ns) as [tmp Htmp].
  - lia.
  - rewrite len_slice_right. lia.
  - rewrite Htmp. simpl.
    apply same_case_split_fuel_result in Htmp.
    destruct tmp as [|t0 ts]; [|eauto].
    destruct Htmp as [Htmp|(_ & Hn & _)]; [discriminate|simpl in Hn; lia].
Qed.

(** Fuel beyond [len(s)] does not change the result. *)
Lemma same_case_split_fuel_stable (fuel1 : nat) :
  forall (fuel2 : nat) (s : string) (score_ns : num),
  0 < fuel1 -> len s <= fuel1 -> 0 < fuel2 -> len s <= fuel2 ->
  same_case_split_fuel fuel1 s score_ns =
  same_case_split_fuel fuel2 s score_ns.
Proof.
  induction fuel1 as [|fuel1 IH]; intros [|fuel2] s score_ns H1 L1 H2 L2;
    try lia.
  simpl.
  destruct (len s <? 2) eqn:Hshort; [reflexivity|].
  apply Nat.ltb_ge in Hshort.
  destruct ((1 <? len s) && in_dictionary s); [reflexivity|].
  rewrite !while_lt_rounds by lia. rewrite Nat.sub_0_r.
  set (th := py_max (score s) score_ns).
  rewrite (rounds_ext
             (scan_body (same_case_split_fuel fuel1) s score_ns th (len s))
             (scan_body (same_case_split_fuel fuel2) s score_ns th (len s)));
    [reflexivity|].
  intros i st Hi. rewrite !scan_body_eq. cbv zeta.
  destruct (case1 th _ _); [reflexivity|].
  destruct (case2 th _ _) eqn:Hc2; [|reflexivity].
  unfold case2 in Hc2. apply andb_prop in Hc2 as [_ Hc2].
  apply andb_prop in Hc2 as [_ Hl].
  apply to_split_len in Hl; [|apply threshold_nonneg].
  rewrite len_slice_left in Hl.
  rewrite (IH fuel2); [reflexivity| | | |]; rewrite ?len_slice_right; lia.
Qed.

(** The case-transition step returns, and its parts spell the segment. *)
Lemma case_transition_parts_concat (s : string) :
  exists r, case_transition_parts s = Ret r /\ concat_tokens r = s.
Proof.
  unfold case_transition_parts.
  destruct (re_search_upper_lower s) as [i|]; [|eexists; split; reflexivity].
  destruct (rescale_score (slice_from (i + 1) s) (slice_from (i + 1) s))
    as [r ->].
  cbn [bind].
  destruct (gtb _ r).
  - destruct (0 <? i).
    + eexists; split; [reflexivity|].
      rewrite !concat_tokens_cons. cbn. rewrite app_empty_r, slice_0.
      apply take_drop.
    + eexists; split; reflexivity.
  - eexists; split; [reflexivity|].
    rewrite !concat_tokens_cons. cbn. rewrite app_empty_r, slice_0.
    apply take_drop.
Qed.

(** [same_case_split] returns, with the token itself or a proper split. *)
Lemma same_case_split_returns (s : string) (score_ns : num) :
  exists r, same_case_split s score_ns = Ret r /\
            (r = [s] \/ proper_split s r).
Proof.
  unfold same_case_split.
  destruct (same_case_split_fuel_total (S (len s)) s score_ns) as [r Hr];
    try lia.
  exists r. split; [exact Hr|].
  eapply same_case_split_fuel_result; eauto.
Qed.

Lemma same_case_split_concat (s : string) (score_ns : num) :
  exists r, same_case_split s score_ns = Ret r /\ concat_tokens r = s.
Proof.
  destruct (same_case_split_returns s score_ns) as (r & Hr & [->|Hp]).
  - exists [s]. split; [exact Hr | reflexivity].
  - exists r. split; [exact Hr | apply Hp].
Qed.

(** A round at a suppressed cut leaves the scan state as it is. *)
Lemma scan_body_affix (rec : string -> num -> outcome (list string))
    (s : string) (score_ns threshold : num) (n i : nat) (st : scan_state) :
  is_affix (slice 0 i s) (slice i n s) = true ->
  scan_body rec s score_ns threshold n i st = Ret st.
Proof.
  intros Ha. rewrite scan_body_eq. cbv zeta.
  unfold case2, case1. rewrite Ha. reflexivity.
Qed.

(** A round whose left piece does not clear the threshold leaves the
    scan state as it is. *)
Lemma scan_body_weak_left (rec : string -> num -> outcome (list string))
    (s : string) (score_ns threshold : num) (n i : nat) (st : scan_state) :
  to_split threshold (slice 0 i s) = false ->
  scan_body rec s score_ns threshold n i st = Ret st.
Proof.
  intros Hl. rewrite scan_body_eq. cbv zeta.
  unfold case2, case1. rewrite Hl, !andb_false_r. reflexivity.
Qed.

(** The cuts a scan goes through are those at the indices below
    [len(s)]. *)
Lemma rounds_log {A : Type} (g : nat -> A) (l : list nat) (acc : list A) :
  rounds (fun i acc => Ret (acc ++ [g i])%list) l acc
  = Ret (acc ++ map g l)%list.
Proof.
  revert acc; induction l as [|i l IH]; intros acc; simpl.
  - now rewrite app_nil_r.
  - rewrite IH, <- app_assoc. reflexivity.
Qed.

Lemma examined_cuts_eq (s : string) :
  examined_cuts s =
  Ret (map (fun i => (slice 0 i s, slice i (len s) s)) (seq 0 (len s))).
Proof.
  unfold examined_cuts. rewrite while_lt_rounds by lia.
  rewrite Nat.sub_0_r.
  apply (rounds_log (fun i => (slice 0 i s, slice i (len s) s))).
Qed.

(** *** Case variants *)

Section CaseVariants.

Hypothesis word_frequency_lower :
  forall w, word_frequency (lower w) = word_frequency w.

Lemma score_lower (w : string) : score (lower w) = score w.
Proof. unfold score. now rewrite word_frequency_lower. Qed.

Lemma in_dictionary_lower (w : string) :
  in_dictionary (lower w) = in_dictionary w.
Proof. unfold in_dictionary. now rewrite lower_idem. Qed.

Lemma is_affix_lower (l r : string) :
  is_affix (lower l) (lower r) = is_affix l r.
Proof. unfold is_affix, is_prefix, is_suffix. now rewrite !lower_idem. Qed.

Lemma rescale_lower (t : string) (v : num) :
  rescale (lower t) v = rescale t v.
Proof. unfold rescale. now rewrite len_lower, in_dictionary_lower. Qed.

Lemma to_split_lower (th : num) (t : string) :
  to_split th (lower t) = to_split th t.
Proof. unfold to_split. now rewrite rescale_lower, score_lower. Qed.

Lemma case1_lower (th : num) (l r : string) :
  case1 th (lower l) (lower r) = case1 th l r.
Proof. unfold case1. now rewrite is_affix_lower, !to_split_lower. Qed.

Lemma case2_lower (th : num) (l r : string) :
  case2 th (lower l) (lower r) = case2 th l r.
Proof.
  unfold case2. now rewrite case1_lower, is_affix_lower, to_split_lower.
Qed.

(** The first token of a result is the whole token exactly when its
    lower-cased form is the lower-cased token. *)
Lemma first_token_lower (right t0 : string) (ts : list string) :
  (t0 :: ts = [right] \/ proper_split right (t0 :: ts)) ->
  String.eqb (lower t0) (lower right) = String.eqb t0 right.
Proof.
  intros [Hsame|(Hc & Hn & Hall & _)].
  - inversion Hsame; subst. now rewrite !String.eqb_refl.
  - destruct ts as [|t1 ts]; [simpl in Hn; lia|].
    apply Forall_inv_tail, Forall_inv in Hall.
    rewrite !concat_tokens_cons in Hc.
    assert (Hlt : len t0 < len right).
    { rewrite <- Hc, !len_app. lia. }
    destruct (String.eqb_spec t0 right) as [->|_]; [lia|].
    destruct (String.eqb_spec (lower t0) (lower right)) as [E|_];
      [|reflexivity].
    apply (f_equal len) in E. rewrite !len_lower in E. lia.
Qed.

Lemma same_case_split_fuel_lower (fuel : nat) :
  forall (s : string) (score_ns : num),
  same_case_split_fuel fuel (lower s) score_ns =
  outcome_map (map lower) (same_case_split_fuel fuel s score_ns).
Proof.
  induction fuel as [|fuel IH]; intros s score_ns; simpl; [reflexivity|].
  rewrite len_lower, in_dictionary_lower, score_lower.
  destruct (len s <? 2); [reflexivity|].
  destruct ((1 <? len s) && in_dictionary s); [reflexivity|].
  rewrite !while_lt_rounds by lia. rewrite Nat.sub_0_r.
  set (th := py_max (score s) score_ns).
  change {| split := None; max_score := of_Z (-1) |}
    with (lower_state {| split := None; max_score := of_Z (-1) |}) at 1.
  rewrite (rounds_simulation lower_state
             (scan_body (same_case_split_fuel fuel) s score_ns th (len s))).
  - destruct (rounds _ _ _) as [st| |]; simpl; try reflexivity.
    unfold scan_result, lower_state; simpl.
    destruct (split st) as [[|t ts]|]; reflexivity.
  - intros i st Hi. rewrite !scan_body_eq. cbv zeta.
    rewrite <- !lower_slice, case1_lower, case2_lower, !score_lower.
    destruct (case1 th _ _).
    + simpl. destruct (gtb _ (max_score st)); reflexivity.
    + destruct (case2 th _ _); [|reflexivity].
      rewrite IH.
      destruct (same_case_split_fuel fuel _ score_ns) as [tmp| |] eqn:Hrec;
        simpl; try reflexivity.
      destruct tmp as [|t0 ts]; [reflexivity|]. simpl.
      apply same_case_split_fuel_result in Hrec.
      rewrite (first_token_lower _ _ _ Hrec).
      destruct (String.eqb t0 _); reflexivity.
Qed.

End CaseVariants.

End SamuraiFacts.

(** ** The properties of the splitter *)

Section SamuraiTheorems.

Context {N : PyNumber} {O : Oracles}.

(** C1: splitting only inserts boundaries.  [same_case_split(s, score_ns)]
    returns a list whose concatenation is [s], for every [s] and
    [score_ns]; [samurai_split(x)] returns a list whose concatenation is
    that of the segments [simple_split(x)], hence [x] itself when
    [simple_split] preserves the characters of [x]. *)
Theorem split_preserves_characters
    (s : string) (score_ns : num) (identifier : string) :
  (exists r, same_case_split s score_ns = Ret r /\ concat_tokens r = s) /\
  (exists r, samurai_split identifier = Ret r /\
             concat_tokens r = concat_tokens (simple_split identifier) /\
             (concat_tokens (simple_split identifier) = identifier ->
              concat_tokens r = identifier)).
Proof.
  split; [apply same_case_split_concat|].
  unfold samurai_split.
  destruct (for_each_concat case_transition_parts (simple_split identifier)
              case_transition_parts_concat []) as (splits & -> & Hsplits).
  cbn [bind].
  destruct (for_each_concat (fun token => same_case_split token (score token))
              splits (fun x => same_case_split_concat x (score x)) [])
    as (r & Hr & Hconcat).
  exists r. cbn in Hconcat, Hsplits.
  assert (concat_tokens r = concat_tokens (simple_split identifier))
    by congruence.
  repeat split; [exact Hr | assumption | congruence].
Qed.

(** C2: [same_case_split] terminates.  A piece of at most one
    character never clears the threshold [max(score(s), score_ns)], so
    in a scan the Case-2 branch runs only at a cut index
    of 2 or more, where the right piece is strictly shorter than [s];
    a round calls [same_case_split] nowhere else than in that branch, on
    the right piece; so a run with fuel for [len(s)] nested calls (one
    for the empty token) returns. *)
Theorem same_case_split_terminates (s : string) (score_ns : num) :
  let n := len s in
  let threshold := py_max (score s) score_ns in
  (forall t, len t <= 1 -> to_split threshold t = false) /\
  (forall i, case2 threshold (slice 0 i s) (slice i n s) = true ->
             2 <= i /\ len (slice i n s) < len s) /\
  (forall rec rec' i st,
     case2 threshold (slice 0 i s) (slice i n s) = false \/
     rec (slice i n s) score_ns = rec' (slice i n s) score_ns ->
     scan_body rec s score_ns threshold n i st =
     scan_body rec' s score_ns threshold n i st) /\
  (forall fuel, 0 < fuel -> len s <= fuel ->
     exists r, same_case_split_fuel fuel s score_ns = Ret r /\
               same_case_split s score_ns = Ret r).
Proof.
  intros n threshold. split; [|split; [|split]].
  - intros t Ht. destruct (to_split threshold t) eqn:Hstrong; [|reflexivity].
    apply to_split_len in Hstrong; [lia | apply threshold_nonneg].
  - intros i Hc2. unfold case2 in Hc2.
    apply andb_prop in Hc2 as [_ Hc2]. apply andb_prop in Hc2 as [_ Hl].
    apply to_split_len in Hl; [|apply threshold_nonneg].
    rewrite len_slice_left in Hl. subst n.
    rewrite len_slice_right. lia.
  - intros rec rec' i st Hcall. rewrite !scan_body_eq. cbv zeta.
    destruct (case1 threshold _ _); [reflexivity|].
    destruct Hcall as [-> | ->]; [reflexivity|].
    reflexivity.
  - intros fuel Hpos Hfuel.
    destruct (same_case_split_fuel_total fuel s score_ns Hpos Hfuel)
      as [r Hr].
    exists r. split; [exact Hr|].
    unfold same_case_split. rewrite <- Hr.
    apply same_case_split_fuel_stable; lia.
Qed.

(** The Case-1 branch: the candidate replaces the recorded split exactly
    when its [score_l + score_r] exceeds the running maximum. *)
Lemma scan_body_case1 (rec : string -> num -> outcome (list string))
    (s : string) (score_ns threshold : num) (n i : nat) (st : scan_state) :
  case1 threshold (slice 0 i s) (slice i n s) = true ->
  scan_body rec s score_ns threshold n i st =
  Ret (if gtb (add (score (slice 0 i s)) (score (slice i n s)))
              (max_score st)
       then {| split := Some [slice 0 i s; slice i n s];
               max_score := add (score (slice 0 i s)) (score (slice i n s)) |}
       else st).
Proof. intros H1. rewrite scan_body_eq. cbv zeta. now rewrite H1. Qed.

(** The Case-2 branch: the recursive result replaces the recorded split
    exactly when its first token is not the whole right piece; the
    running maximum plays no part and stays as it is. *)
Lemma scan_body_case2 (rec : string -> num -> outcome (list string))
    (s : string) (score_ns threshold : num) (n i : nat) (st : scan_state)
    (t0 : string) (ts : list string) :
  case2 threshold (slice 0 i s) (slice i n s) = true ->
  rec (slice i n s) score_ns = Ret (t0 :: ts) ->
  scan_body rec s score_ns threshold n i st =
  Ret (if negb (String.eqb t0 (slice i n s))
       then {| split := Some (slice 0 i s :: t0 :: ts);
               max_score := max_score st |}
       else st).
Proof.
  intros H2 Hrec. rewrite scan_body_eq. cbv zeta.
  assert (H1 : case1 threshold (slice 0 i s) (slice i n s) = false).
  { unfold case2 in H2. apply andb_prop in H2 as [H1 _].
    now apply negb_true_iff in H1. }
  now rewrite H1, H2, Hrec.
Qed.

(** C4: affix suppression.  A round of the scan at a cut whose left
    piece is a listed prefix or whose right piece is a listed suffix
    records nothing; no boundary of the returned list is such a cut;
    and when every cut whose left piece clears the threshold is such a
    cut, the token is returned whole. *)
Theorem affix_suppression (s : string) (score_ns : num) :
  (forall rec threshold n i st,
     is_prefix (slice 0 i s) = true \/ is_suffix (slice i n s) = true ->
     case1 threshold (slice 0 i s) (slice i n s) = false /\
     case2 threshold (slice 0 i s) (slice i n s) = false /\
     scan_body rec s score_ns threshold n i st = Ret st) /\
  (exists r, same_case_split s score_ns = Ret r /\ no_affix_cuts r) /\
  ((forall i, i < len s ->
      to_split (py_max (score s) score_ns) (slice 0 i s) = true ->
      is_prefix (slice 0 i s) = true \/
      is_suffix (slice i (len s) s) = true) ->
   same_case_split s score_ns = Ret [s]).
Proof.
  split; [|split].
  - intros rec threshold n i st Haffix.
    assert (Ha : is_affix (slice 0 i s) (slice i n s) = true).
    { unfold is_affix. destruct Haffix as [-> | ->];
        [reflexivity | apply orb_true_r]. }
    unfold case2, case1. rewrite Ha. repeat split.
    now apply scan_body_affix.
  - destruct (same_case_split_returns s score_ns) as (r & Hr & [->|Hp]).
    + exists [s]. split; [exact Hr | apply no_affix_cuts_single].
    + exists r. split; [exact Hr | apply Hp].
  - intros Hall. unfold same_case_split. simpl.
    destruct (len s <? 2); [reflexivity|].
    destruct ((1 <? len s) && in_dictionary s); [reflexivity|].
    rewrite while_lt_rounds by lia. rewrite Nat.sub_0_r.
    set (th := py_max (score s) score_ns) in *.
    set (start := {| split := None; max_score := of_Z (-1) |}).
    destruct (rounds_total (fun st => st = start)
                (scan_body (same_case_split_fuel (len s)) s score_ns th
                   (len s))
                (seq 0 (len s))) with (st := start) as (st & -> & ->);
      [|reflexivity|reflexivity].
    intros i st Hi ->. apply in_seq in Hi. exists start.
    split; [|reflexivity].
    destruct (to_split th (slice 0 i s)) eqn:Hl.
    + apply scan_body_affix. unfold is_affix.
      destruct (Hall i) as [-> | ->]; auto using orb_true_r. lia.
    + now apply scan_body_weak_left.
Qed.

(** C5: the base cases.  A token of fewer than two characters, and a
    token of two or more characters that the dictionary accepts, is
    returned unchanged as a one-element list, whatever [score_ns] is. *)
Theorem same_case_split_base_cases (t : string) (score_ns : num) :
  len t < 2 \/ (1 < len t /\ in_dictionary t = true) ->
  same_case_split t score_ns = Ret [t].
Proof.
  intros Hbase. unfold same_case_split. simpl.
  destruct (len t <? 2) eqn:Hshort; [reflexivity|].
  destruct Hbase as [Hlt | [Hgt Hdict]].
  - apply Nat.ltb_ge in Hshort. lia.
  - apply Nat.ltb_lt in Hgt. now rewrite Hgt, Hdict.
Qed.

(** C6, as the code has it: in the general case the scan of
    [same_case_split] goes through the cut indices [0 .. len(s) - 1], with
    [left = s[0:i]] and [right = s[i:]]; the first cut has the empty left
    piece, and no cut has an empty right piece (the index [len(s)] is not
    reached). *)
Theorem scan_examines_cuts (s : string) (score_ns : num) :
  examined_cuts s =
    Ret (map (fun i => (slice 0 i s, slice_from i s)) (seq 0 (len s))) /\
  (forall i, In i (seq 0 (len s)) <-> i < len s) /\
  (forall rec threshold st,
     while_lt (scan_body rec s score_ns threshold (len s)) (len s) (len s) 0 st
     = rounds (scan_body rec s score_ns threshold (len s))
         (seq 0 (len s)) st) /\
  (forall fuel, 2 <= len s -> in_dictionary s = false ->
     same_case_split_fuel (S fuel) s score_ns =
     st <- rounds (scan_body (same_case_split_fuel fuel) s score_ns
                     (py_max (score s) score_ns) (len s))
             (seq 0 (len s)) scan_start ;;
     Ret (scan_result s st)) /\
  (forall cuts, examined_cuts s = Ret cuts ->
     (0 < len s -> hd_error cuts = Some (EmptyString, s)) /\
     (forall left right, In (left, right) cuts -> right <> EmptyString)).
Proof.
  assert (Hcuts : examined_cuts s =
    Ret (map (fun i => (slice 0 i s, slice_from i s)) (seq 0 (len s)))).
  { rewrite examined_cuts_eq. f_equal. apply map_ext.
    intros i. now rewrite slice_to_end. }
  split; [exact Hcuts|]. split; [|split; [|split]].
  - intros i. rewrite in_seq. lia.
  - intros rec threshold st. rewrite while_lt_rounds by lia.
    now rewrite Nat.sub_0_r.
  - intros fuel Hlen Hdict. simpl.
    destruct (Nat.ltb_spec (len s) 2); [lia|].
    rewrite Hdict, andb_false_r.
    rewrite while_lt_rounds by lia. now rewrite Nat.sub_0_r.
  - intros cuts Hrun. rewrite Hcuts in Hrun. inversion Hrun; subst cuts.
    split.
    + intros Hlen. destruct (len s) as [|n] eqn:E; [lia|]. reflexivity.
    + intros left right Hin. apply in_map_iff in Hin as (i & Heq & Hi).
      apply in_seq in Hi. inversion Heq; subst. intros Hempty.
      apply (f_equal len) in Hempty. unfold slice_from in Hempty.
      rewrite len_drop in Hempty. simpl in Hempty. lia.
Qed.

(** C7: the case-transition tie-break.  For a segment whose first
    uppercase-to-lowercase transition is at index [i > 0], the step
    returns [[s[0:i], s[i:]]] exactly when [score(s[i:])] is strictly
    greater than [rescale(s[i+1:], score(s[i+1:]))], and
    [[s[0:i+1], s[i+1:]]] otherwise, also when the two numbers are
    equal. *)
Theorem case_transition_tie_break (s : string) (i : nat) :
  re_search_upper_lower s = Some i -> 0 < i ->
  exists r,
    rescale (slice_from (i + 1) s) (score (slice_from (i + 1) s)) = Ret r /\
    (case_transition_parts s = Ret [slice 0 i s; slice_from i s] <->
     gtb (score (slice_from i s)) r = true) /\
    (gtb (score (slice_from i s)) r = false ->
     case_transition_parts s
     = Ret [slice 0 (i + 1) s; slice_from (i + 1) s]) /\
    (num_eq (score (slice_from i s)) r ->
     case_transition_parts s
     = Ret [slice 0 (i + 1) s; slice_from (i + 1) s]).
Proof.
  intros Hsearch Hpos.
  destruct (rescale_score (slice_from (i + 1) s) (slice_from (i + 1) s))
    as [r Hr].
  exists r. split; [exact Hr|].
  assert (Hparts : case_transition_parts s =
            Ret (if gtb (score (slice_from i s)) r
                 then [slice 0 i s; slice_from i s]
                 else [slice 0 (i + 1) s; slice_from (i + 1) s])).
  { unfold case_transition_parts. rewrite Hsearch, Hr. cbn [bind].
    apply Nat.ltb_lt in Hpos. rewrite Hpos.
    now destruct (gtb _ r). }
  assert (Hdiff : slice 0 (i + 1) s <> slice 0 i s).
  { intros E. apply (f_equal len) in E. rewrite !len_slice_left in E.
    apply re_search_bound in Hsearch. lia. }
  rewrite Hparts. repeat split.
  - destruct (gtb _ r); [reflexivity|].
    intros E. inversion E as [[E1 E2]]. now contradiction Hdiff.
  - now intros ->.
  - now intros ->.
  - intros [_ Heq]. unfold gtb. now rewrite Heq.
Qed.

(** C8: [rescale(token, score)] is 0 when [len(token) <= 1]; for a
    score (a number that is not negative) it is [score^(1/2)] when
    [2 <= len(token) <= 4] and the token is a dictionary word, and
    [score^(1/2.5)] in every other case; and [rescale(token, 0) == 0]. *)
Theorem rescale_cases (token : string) (value : num) :
  (len token <= 1 -> rescale token value = Ret (of_Z 0)) /\
  (ltb value (of_Z 0) = false ->
   (2 <= len token <= 4 -> in_dictionary token = true ->
    rescale token value = Ret (pow_half value)) /\
   (2 <= len token -> 4 < len token \/ in_dictionary token = false ->
    rescale token value = Ret (pow_two_fifths value))) /\
  (exists r, rescale token (of_Z 0) = Ret r /\ num_eq r (of_Z 0)).
Proof.
  split; [apply rescale_short|]. split.
  - intros Hnonneg. unfold rescale, math_pow_half, math_pow_two_fifths.
    rewrite Hnonneg. split.
    + intros [H2 H4] Hdict.
      destruct (Nat.leb_spec (len token) 1); [lia|].
      destruct (Nat.leb_spec (len token) 4); [|lia].
      now rewrite Hdict.
    + intros H2 Hother.
      destruct (Nat.leb_spec (len token) 1); [lia|].
      destruct Hother as [H4 | Hdict].
      * destruct (Nat.leb_spec (len token) 4); [lia|]. reflexivity.
      * rewrite Hdict, andb_false_r. reflexivity.
  - assert (Hz : ltb (of_Z 0) (of_Z 0) = false) by apply ltb_irrefl.
    unfold rescale, math_pow_half, math_pow_two_fifths. rewrite Hz.
    destruct (len token <=? 1); [|destruct (_ && _)];
      eexists; (split; [reflexivity|]).
    + split; exact Hz.
    + destruct (pow_half_zero _ Hz Hz) as [A B]. split; assumption.
    + destruct (pow_two_fifths_zero _ Hz Hz) as [A B]. split; assumption.
Qed.

(** C9: no short fragments.  When [same_case_split(s, score_ns)] returns
    anything other than [[s]], every token of the returned list has two
    or more characters. *)
Theorem no_short_fragments (s : string) (score_ns : num) (r : list string) :
  same_case_split s score_ns = Ret r -> r <> [s] ->
  Forall (fun t => 2 <= len t) r.
Proof.
  intros Hrun Hsplit.
  apply same_case_split_fuel_result in Hrun.
  destruct Hrun as [Hsame | (_ & _ & Hall & _)].
  - contradiction.
  - exact Hall.
Qed.

(** C10, as the code has it: [same_case_split] is case-agnostic on ASCII
    strings.  When [word_frequency] does not depend on the case of its
    argument and [s] is an ASCII string, its lower-casing is an ASCII
    string of the same length, and the split of the lower-cased string
    is the split of [s], token by token lower-cased. *)
Theorem same_case_split_case_agnostic_ascii :
  (forall w, word_frequency (lower w) = word_frequency w) ->
  forall (s : string) (score_ns : num),
  is_ascii s = true ->
  is_ascii (lower s) = true /\ len (lower s) = len s /\
  exists r, same_case_split s score_ns = Ret r /\
            same_case_split (lower s) score_ns = Ret (map lower r).
Proof.
  intros Hfreq s score_ns Hascii.
  split; [now apply is_ascii_lower|]. split; [apply len_lower|].
  destruct (same_case_split_concat s score_ns) as (r & Hr & _).
  exists r. split; [exact Hr|].
  unfold same_case_split in *. rewrite len_lower.
  rewrite (same_case_split_fuel_lower Hfreq). now rewrite Hr.
Qed.

End SamuraiTheorems.

(** ** Further properties of the code *)

Section FurtherProperties.

Context {N : PyNumber} {O : Oracles}.

(** X1: the noise floor of [score].  [score(w)] is 0 or the frequency
    itself, which is then not below 30; it is never negative, whatever
    [word_frequency] returns. *)
Theorem score_floor (w : string) :
  (score w = of_Z 0 \/
   (score w = word_frequency w /\ ltb (score w) (of_Z 30) = false)) /\
  ltb (score w) (of_Z 0) = false.
Proof.
  split; [|apply score_nonneg].
  unfold score. destruct (ltb (word_frequency w) (of_Z 30)) eqn:H30.
  - now left.
  - right. now split.
Qed.

(** X3: the transition search is a leftmost match.  When it returns
    [i], the pattern matches at [i] and at no index before [i]; when it
    returns nothing, the pattern matches nowhere. *)
Theorem re_search_leftmost (s : string) :
  match re_search_upper_lower s with
  | Some i =>
      transition_at s i = true /\
      forall j, j < i -> transition_at s j = false
  | None => forall j, transition_at s j = false
  end.
Proof.
  induction s as [|c s IH]; [intros j; now destruct j|].
  simpl. destruct s as [|d s'].
  - intros [|j]; [reflexivity|]. rewrite transition_at_cons. now destruct j.
  - destruct (is_upper c && is_lower d) eqn:Hhead.
    + split; [exact Hhead | intros j Hj; lia].
    + destruct (re_search_upper_lower (String d s')) as [i|]; simpl.
      * destruct IH as [Hat Hbefore]. split.
        -- now rewrite transition_at_cons.
        -- intros [|j] Hj; [exact Hhead|].
           rewrite transition_at_cons. apply Hbefore. lia.
      * intros [|j]; [exact Hhead|].
        rewrite transition_at_cons. apply IH.
Qed.

(** X4: a transition at index 0.  The segment is kept whole exactly
    when [score(s)] is strictly greater than
    [rescale(s[1:], score(s[1:]))]; otherwise its first letter is split
    off. *)
Theorem case_transition_at_start (s : string) :
  re_search_upper_lower s = Some 0 ->
  exists r,
    rescale (slice_from 1 s) (score (slice_from 1 s)) = Ret r /\
    case_transition_parts s =
    Ret (if gtb (score s) r then [s] else [slice 0 1 s; slice_from 1 s]) /\
    [s] <> [slice 0 1 s; slice_from 1 s].
Proof.
  intros Hsearch.
  destruct (rescale_score (slice_from 1 s) (slice_from 1 s)) as [r Hr].
  exists r. split; [exact Hr|]. split; [|discriminate].
  unfold case_transition_parts. rewrite Hsearch.
  change (0 + 1) with 1. change (0 <? 0) with false.
  rewrite Hr. cbn [bind].
  now destruct (gtb (score s) r).
Qed.

(** The parts of a segment: one or two, spelling the segment, none
    empty unless the segment is. *)
Lemma case_transition_parts_facts (s : string) :
  exists parts,
    case_transition_parts s = Ret parts /\
    1 <= List.length parts <= 2 /\
    concat_tokens parts = s /\
    (s <> EmptyString -> Forall (fun t => t <> EmptyString) parts).
Proof.
  destruct (case_transition_parts_concat s) as (parts & Hrun & Hconcat).
  exists parts. split; [exact Hrun|].
  assert (Hne : forall t, 0 < len t -> t <> EmptyString).
  { intros t Ht E. subst t. simpl in Ht. lia. }
  unfold case_transition_parts in Hrun.
  destruct (re_search_upper_lower s) as [i|] eqn:Hsearch.
  - apply re_search_bound in Hsearch.
    destruct (rescale_score (slice_from (i + 1) s) (slice_from (i + 1) s))
      as [r Hr].
    rewrite Hr in Hrun. cbn [bind] in Hrun.
    assert (Hleft : forall k, 0 < k -> 0 < len (slice 0 k s))
      by (intros k Hk; rewrite len_slice_left; lia).
    assert (Hright : forall k, k <= i + 1 -> 0 < len (slice_from k s))
      by (intros k Hk; unfold slice_from; rewrite len_drop; lia).
    destruct (gtb _ r); [destruct (Nat.ltb_spec 0 i)|];
      inversion Hrun; subst parts; simpl;
      (split; [lia|]); (split; [exact Hconcat|]); intros Hs;
      repeat constructor; try exact Hs; apply Hne;
      try (apply Hleft; lia); apply Hright; lia.
  - inversion Hrun; subst parts. simpl.
    split; [lia|]. split; [reflexivity|]. intros Hs. now repeat constructor.
Qed.

(** X5: the case-transition step makes at most one cut.  It returns one
    or two parts that spell the segment, and no part of a non-empty
    segment is empty. *)
Theorem case_transition_parts_shape (s : string) :
  exists parts,
    case_transition_parts s = Ret parts /\
    1 <= List.length parts <= 2 /\
    concat_tokens parts = s /\
    (s <> EmptyString -> Forall (fun t => t <> EmptyString) parts).
Proof.
  destruct (case_transition_parts_facts s) as (parts & Hrun & Hshape).
  exists parts. split; [exact Hrun | exact Hshape].
Qed.

(** The two early returns of [same_case_split]. *)
Lemma same_case_split_atomic (t : string) (score_ns : num) :
  len t < 2 \/ in_dictionary t = true ->
  same_case_split t score_ns = Ret [t].
Proof.
  intros Hatomic. unfold same_case_split. simpl.
  destruct (Nat.ltb_spec (len t) 2) as [_|Hlong]; [reflexivity|].
  destruct Hatomic as [Hshort|Hdict]; [lia|].
  destruct (Nat.ltb_spec 1 (len t)); [|lia]. now rewrite Hdict.
Qed.

(** [same_case_split] of a non-empty token has no empty token. *)
Lemma same_case_split_nonempty (t : string) (score_ns : num) :
  t <> EmptyString ->
  exists r, same_case_split t score_ns = Ret r /\
            Forall (fun u => u <> EmptyString) r.
Proof.
  intros Ht.
  destruct (same_case_split_returns t score_ns)
    as (r & Hr & [-> | (_ & _ & Hall & _)]).
  - exists [t]. split; [exact Hr | now repeat constructor].
  - exists r. split; [exact Hr|].
    eapply Forall_impl; [|exact Hall].
    intros u Hu E. subst u. simpl in Hu. lia.
Qed.

(** X6: [samurai_split] refines the segmentation.  Its result is the
    segments of [simple_split] in order, each replaced by one or more
    tokens that spell it: no token runs across a segment boundary. *)
Theorem samurai_split_refines_segments (identifier : string) :
  exists groups : list (list string),
    samurai_split identifier = Ret (List.concat groups) /\
    map concat_tokens groups = simple_split identifier /\
    Forall (fun g => g <> []) groups.
Proof.
  unfold samurai_split.
  set (Q1 := fun (seg : string) (parts : list string) =>
               concat_tokens parts = seg /\ parts <> []).
  destruct (for_each_groups Q1 case_transition_parts
              (simple_split identifier)) with (acc := @nil string)
    as (gs1 & -> & Hgs1).
  { intros seg. destruct (case_transition_parts_facts seg)
      as (parts & Hrun & [Hlen _] & Hconcat & _).
    exists parts. split; [exact Hrun|]. split; [exact Hconcat|].
    intros ->. simpl in Hlen. lia. }
  cbn [bind app].
  destruct (for_each_groups Q1
              (fun token => same_case_split token (score token))
              (List.concat gs1)) with (acc := @nil string)
    as (gs2 & -> & Hgs2).
  { intros p. destruct (same_case_split_returns p (score p))
      as (r & Hr & Hshape).
    exists r. split; [exact Hr|].
    destruct Hshape as [-> | (Hc & Hn & _)].
    - split; [reflexivity | discriminate].
    - split; [exact Hc | intros ->; simpl in Hn; lia]. }
  apply Forall2_concat_regroup in Hgs2 as (gss & -> & Hgss).
  exists (map (@List.concat string) gss). cbn [app].
  split; [now rewrite concat_concat_map|].
  clear -Hgs1 Hgss. revert gss Hgss.
  induction Hgs1 as [|seg parts segs gs1 [Hseg Hparts] _ IH];
    intros gss Hgss; inversion Hgss as [|? tss ? gss' Htss Hrest]; subst.
  - split; constructor.
  - destruct (IH gss' Hrest) as [Hmap Hne]. simpl. split.
    + f_equal; [|exact Hmap].
      rewrite concat_tokens_flat. f_equal.
      clear -Htss. induction Htss as [|p ts ps tss [Hp _] _ IHt];
        simpl; [reflexivity | now rewrite Hp, IHt].
    + constructor; [|exact Hne].
      destruct Htss as [|p ts ps tss [_ Hts] _]; [now contradiction Hparts|].
      simpl. destruct ts; [now contradiction Hts | discriminate].
Qed.

(** X7: no empty token.  When no segment of [simple_split] is empty,
    no token of [samurai_split] is. *)
Theorem samurai_split_no_empty_token (identifier : string) :
  Forall (fun seg => seg <> EmptyString) (simple_split identifier) ->
  exists r, samurai_split identifier = Ret r /\
            Forall (fun t => t <> EmptyString) r.
Proof.
  intros Hsegs. unfold samurai_split.
  destruct (for_each_forall (fun seg => seg <> EmptyString)
              (fun t => t <> EmptyString) case_transition_parts
              (simple_split identifier)) with (acc := @nil string)
    as (splits & -> & Hsplits); [|exact Hsegs|constructor|].
  { intros seg Hseg. destruct (case_transition_parts_facts seg)
      as (parts & Hrun & _ & _ & Hne). eauto. }
  cbn [bind].
  apply (for_each_forall (fun t => t <> EmptyString)
           (fun t => t <> EmptyString)); [|exact Hsplits|constructor].
  intros t Ht. now apply same_case_split_nonempty.
Qed.

(** X8: segments that are already words come back as they are.  When no
    segment has an uppercase-to-lowercase transition and each is a
    dictionary word or shorter than two characters, [samurai_split]
    returns the segments of [simple_split] unchanged. *)
Theorem samurai_split_atomic_segments (identifier : string) :
  (forall seg, In seg (simple_split identifier) ->
     re_search_upper_lower seg = None /\
     (len seg < 2 \/ in_dictionary seg = true)) ->
  samurai_split identifier = Ret (simple_split identifier).
Proof.
  intros Hsegs. unfold samurai_split.
  rewrite for_each_identity.
  - cbn [bind app]. rewrite for_each_identity; [reflexivity|].
    intros seg Hseg. apply same_case_split_atomic. now apply Hsegs.
  - intros seg Hseg. unfold case_transition_parts.
    now destruct (Hsegs seg Hseg) as [-> _].
Qed.

(** X9: the number of tokens.  [same_case_split] returns at least one
    token, and when it splits, at most [len(s) / 2] of them. *)
Theorem same_case_split_token_count (s : string) (score_ns : num) :
  exists r,
    same_case_split s score_ns = Ret r /\
    1 <= List.length r /\
    (r <> [s] -> 2 <= List.length r /\ 2 * List.length r <= len s).
Proof.
  destruct (same_case_split_returns s score_ns)
    as (r & Hr & [-> | (Hc & Hn & Hall & _)]).
  - exists [s]. split; [exact Hr|]. split; [simpl; lia|].
    intros Hne. now contradiction Hne.
  - exists r. split; [exact Hr|]. split; [lia|]. intros _.
    split; [exact Hn|]. rewrite <- Hc.
    now apply len_concat_tokens_lower_bound.
Qed.

(** X10: Case 1 keeps the best cut.  When Case 2 holds at no cut of the
    scan, the result is either the token itself, and then no Case-1 cut
    has [score_l + score_r > -1], or the two pieces of a Case-1 cut whose
    [score_l + score_r] no other Case-1 cut exceeds. *)
Theorem best_case1_cut (s : string) (score_ns : num) :
  let n := len s in
  let threshold := py_max (score s) score_ns in
  let total := fun i => add (score (slice 0 i s)) (score (slice i n s)) in
  2 <= len s -> in_dictionary s = false ->
  (forall i, i < n ->
     case2 threshold (slice 0 i s) (slice i n s) = false) ->
  (same_case_split s score_ns = Ret [s] /\
   forall j, j < n ->
     case1 threshold (slice 0 j s) (slice j n s) = true ->
     gtb (total j) (of_Z (-1)) = false) \/
  (exists k, k < n /\
     case1 threshold (slice 0 k s) (slice k n s) = true /\
     same_case_split s score_ns = Ret [slice 0 k s; slice k n s] /\
     forall j, j < n ->
       case1 threshold (slice 0 j s) (slice j n s) = true ->
       gtb (total j) (total k) = false).
Proof.
  intros n threshold total Hlen Hdict Hno2.
  set (P := fun (i : nat) (st : scan_state) =>
    (forall j, j < i ->
       case1 threshold (slice 0 j s) (slice j n s) = true ->
       gtb (total j) (max_score st) = false) /\
    ((split st = None /\ max_score st = of_Z (-1)) \/
     exists k, k < i /\
       case1 threshold (slice 0 k s) (slice k n s) = true /\
       split st = Some [slice 0 k s; slice k n s] /\
       max_score st = total k)).
  destruct (same_case_split_returns s score_ns) as (r & Hr & _).
  rewrite Hr. unfold same_case_split in Hr. simpl in Hr.
  destruct (Nat.ltb_spec (len s) 2); [lia|].
  rewrite Hdict, andb_false_r in Hr.
  rewrite while_lt_rounds in Hr by lia. rewrite Nat.sub_0_r in Hr.
  fold n threshold in Hr.
  destruct (rounds _ _ _) as [st| |] eqn:Hscan; simpl in Hr;
    try discriminate.
  inversion Hr; subst r; clear Hr.
  assert (Hfinal : P (0 + n) st).
  { refine (rounds_seq_invariant P _ n 0 _ st _ _ Hscan).
    - split; [intros j Hj; lia | now left].
    - intros i x y Hi [Hmax Hrec] Hbody.
      rewrite scan_body_eq in Hbody. cbv zeta in Hbody.
      destruct (case1 threshold (slice 0 i s) (slice i n s)) eqn:H1.
      + fold (total i) in Hbody.
        destruct (gtb (total i) (max_score x)) eqn:Hbetter;
          inversion Hbody; subst y; clear Hbody.
        * split.
          -- intros j Hj Hj1. simpl. unfold gtb in *.
             destruct (Nat.eq_dec j i) as [->|Hji]; [apply ltb_irrefl|].
             destruct (ltb (total i) (total j)) eqn:Hij; [|reflexivity].
             assert (Hold : ltb (max_score x) (total j) = false)
               by (apply Hmax; [lia | exact Hj1]).
             rewrite (ltb_trans _ _ _ Hbetter Hij) in Hold. discriminate.
          -- right. exists i. simpl. repeat split; [lia | exact H1].
        * split.
          -- intros j Hj Hj1.
             destruct (Nat.eq_dec j i) as [->|Hji]; [exact Hbetter|].
             apply Hmax; [lia | exact Hj1].
          -- destruct Hrec as [Hnone | (k & Hk & Hrest)]; [now left|].
             right. exists k. split; [lia | exact Hrest].
      + rewrite (Hno2 i) in Hbody by lia.
        inversion Hbody; subst y; clear Hbody. split.
        * intros j Hj Hj1.
          destruct (Nat.eq_dec j i) as [->|Hji]; [congruence|].
          apply Hmax; [lia | exact Hj1].
        * destruct Hrec as [Hnone | (k & Hk & Hrest)]; [now left|].
          right. exists k. split; [lia | exact Hrest]. }
  simpl in Hfinal. destruct Hfinal as [Hmax Hrec]. unfold scan_result.
  destruct Hrec as [[Hnone Hinit] | (k & Hk & Hk1 & Hsplit & Hscore)].
  - left. rewrite Hnone. split; [reflexivity|].
    intros j Hj Hj1. rewrite <- Hinit. now apply Hmax.
  - right. exists k. rewrite Hsplit.
    repeat split; [exact Hk | exact Hk1 |].
    intros j Hj Hj1. rewrite <- Hscore. now apply Hmax.
Qed.

(** X11: the tail of a split is a split.  When [same_case_split]
    returns three or more tokens, the tokens after the first are what
    [same_case_split] returns, with the same [score_ns], for the text
    they spell. *)
Theorem same_case_split_tail
    (s : string) (score_ns : num) (t : string) (rest : list string) :
  same_case_split s score_ns = Ret (t :: rest) ->
  2 <= List.length rest ->
  same_case_split (concat_tokens rest) score_ns = Ret rest.
Proof.
  intros Hrun Hrest. unfold same_case_split in Hrun. simpl in Hrun.
  destruct (Nat.ltb_spec (len s) 2) as [|Hlen].
  { inversion Hrun; subst. simpl in Hrest. lia. }
  destruct ((1 <? len s) && in_dictionary s).
  { inversion Hrun; subst. simpl in Hrest. lia. }
  rewrite while_lt_rounds in Hrun by lia. rewrite Nat.sub_0_r in Hrun.
  set (th := py_max (score s) score_ns) in *.
  destruct (rounds _ _ _) as [st| |] eqn:Hscan; simpl in Hrun;
    try discriminate.
  assert (Hinv : split st = None \/
    (exists l r, split st = Some [l; r]) \/
    (exists i tmp, split st = Some (slice 0 i s :: tmp) /\
       same_case_split_fuel (len s) (slice i (len s) s) score_ns = Ret tmp)).
  { refine (rounds_invariant
              (fun st => split st = None \/
                 (exists l r, split st = Some [l; r]) \/
                 (exists i tmp, split st = Some (slice 0 i s :: tmp) /\
                    same_case_split_fuel (len s) (slice i (len s) s) score_ns
                    = Ret tmp))
              _ _ _ _ _ _ Hscan); [|now left].
    intros i x y _ Hx Hbody. rewrite scan_body_eq in Hbody.
    cbv zeta in Hbody.
    destruct (case1 th _ _).
    - inversion Hbody; subst y.
      destruct (gtb _ (max_score x)); [|exact Hx].
      right; left. now eexists _, _.
    - destruct (case2 th _ _); [|now inversion Hbody; subst].
      destruct (same_case_split_fuel (len s) _ score_ns) as [tmp| |]
        eqn:Hrec; simpl in Hbody; try discriminate.
      destruct tmp as [|t0 ts]; [discriminate|].
      inversion Hbody; subst y.
      destruct (negb _); [|exact Hx].
      right; right. exists i, (t0 :: ts). now split. }
  inversion Hrun as [Hresult]; clear Hrun. unfold scan_result in Hresult.
  destruct Hinv as [Hsplit | [(l & r & Hsplit) | (i & tmp & Hsplit & Hrec)]];
    rewrite Hsplit in Hresult; inversion Hresult; subst;
    try (simpl in Hrest; lia).
  assert (Hconcat : concat_tokens rest = slice i (len s) s).
  { apply same_case_split_fuel_result in Hrec.
    destruct Hrec as [-> | [Hc _]]; [reflexivity | exact Hc]. }
  rewrite Hconcat. unfold same_case_split. rewrite <- Hrec.
  apply same_case_split_fuel_stable; rewrite ?len_slice_right; lia.
Qed.

(** A scan in which no left piece clears the threshold records
    nothing. *)
Lemma same_case_split_no_strong_left (s : string) (score_ns : num) :
  (forall i, i < len s ->
     to_split (py_max (score s) score_ns) (slice 0 i s) = false) ->
  same_case_split s score_ns = Ret [s].
Proof.
  intros Hweak. unfold same_case_split. simpl.
  destruct (len s <? 2); [reflexivity|].
  destruct ((1 <? len s) && in_dictionary s); [reflexivity|].
  rewrite while_lt_rounds by lia. rewrite Nat.sub_0_r.
  set (start := {| split := None; max_score := of_Z (-1) |}).
  destruct (rounds_total (fun st => st = start)
              (scan_body (same_case_split_fuel (len s)) s score_ns
                 (py_max (score s) score_ns) (len s))
              (seq 0 (len s))) with (st := start) as (st & -> & ->);
    [|reflexivity|reflexivity].
  intros i st Hi ->. apply in_seq in Hi. exists start.
  split; [|reflexivity].
  apply scan_body_weak_left. apply Hweak. lia.
Qed.

(** X12: a token without a known beginning is not split.  In an
    arithmetic whose [>=] is transitive, when every proper non-empty
    prefix of [s] has a frequency below 30, [same_case_split] returns
    [[s]]. *)
Theorem same_case_split_unknown_prefixes (s : string) (score_ns : num) :
  (forall x y z : num, ltb x y = false -> ltb y z = false ->
                       ltb x z = false) ->
  (forall i, 0 < i < len s ->
     ltb (word_frequency (slice 0 i s)) (of_Z 30) = true) ->
  same_case_split s score_ns = Ret [s].
Proof.
  intros Hweak Hrare. apply same_case_split_no_strong_left.
  intros i Hi. unfold to_split.
  pose proof (threshold_nonneg s score_ns) as Hth.
  assert (Hz : ltb (of_Z 0) (of_Z 0) = false) by apply ltb_irrefl.
  destruct (Nat.le_gt_cases (len (slice 0 i s)) 1) as [Hshort|Hlong].
  - rewrite (rescale_short _ _ Hshort). exact Hth.
  - assert (Hscore : score (slice 0 i s) = of_Z 0).
    { unfold score. rewrite Hrare; [reflexivity|].
      rewrite len_slice_left in Hlong. lia. }
    rewrite Hscore. unfold rescale, math_pow_half, math_pow_two_fifths.
    rewrite Hz. destruct (Nat.leb_spec (len (slice 0 i s)) 1); [lia|].
    unfold gtb.
    destruct (_ && _).
    + destruct (pow_half_zero _ Hz Hz) as [_ Hle]. eapply Hweak; eauto.
    + destruct (pow_two_fifths_zero _ Hz Hz) as [_ Hle].
      eapply Hweak; eauto.
Qed.

(** X13: the affix tests ignore case and know their lists.  [is_prefix]
    and [is_suffix] give the same answer for a string and its
    lower-cased form, accept every entry of their list, and reject the
    empty string. *)
Theorem affix_tests_ignore_case :
  (forall s, is_prefix (lower s) = is_prefix s /\
             is_suffix (lower s) = is_suffix s) /\
  (forall e, In e prefix_list -> is_prefix e = true) /\
  (forall e, In e suffix_list -> is_suffix e = true) /\
  is_prefix EmptyString = false /\ is_suffix EmptyString = false.
Proof.
  assert (Hmember : forall (l : list string),
            forallb (fun e => String.eqb (lower e) e) l = true ->
            forall e, In e l -> str_in (lower e) l = true).
  { intros l Hl e He. unfold str_in. apply existsb_exists.
    exists e. split; [exact He|].
    rewrite forallb_forall in Hl. specialize (Hl e He).
    apply String.eqb_eq in Hl. rewrite Hl. apply String.eqb_refl. }
  split; [|split; [|split; [|split]]].
  - intros s. unfold is_prefix, is_suffix. now rewrite lower_idem.
  - apply Hmember. vm_compute. reflexivity.
  - apply Hmember. vm_compute. reflexivity.
  - vm_compute. reflexivity.
  - vm_compute. reflexivity.
Qed.

End FurtherProperties.

(** ** Concrete runs *)

Import QNum Example.

Lemma freq_table_lower (w : string) : freq_table (lower w) = freq_table w.
Proof. unfold freq_table. now rewrite lower_idem. Qed.

(** C3: within one scan, a Case-1 candidate is recorded exactly when its
    [score_l + score_r] exceeds the running maximum, which only Case 1
    updates; a Case-2 result is recorded exactly when its first token
    differs from the right piece, whatever was recorded before; and there
    is a configuration in which Case 1 holds at an early index, Case 2 at
    a later one, and the function returns the later Case-2 result. *)
Theorem case2_overwrites_case1 :
  (forall (N : PyNumber) (O : Oracles) rec s score_ns threshold n i st,
     case1 threshold (slice 0 i s) (slice i n s) = true ->
     scan_body rec s score_ns threshold n i st =
     Ret (if gtb (add (score (slice 0 i s)) (score (slice i n s)))
                 (max_score st)
          then {| split := Some [slice 0 i s; slice i n s];
                  max_score :=
                    add (score (slice 0 i s)) (score (slice i n s)) |}
          else st)) /\
  (forall (N : PyNumber) (O : Oracles) rec s score_ns threshold n i st t0 ts,
     case2 threshold (slice 0 i s) (slice i n s) = true ->
     rec (slice i n s) score_ns = Ret (t0 :: ts) ->
     scan_body rec s score_ns threshold n i st =
     Ret (if negb (String.eqb t0 (slice i n s))
          then {| split := Some (slice 0 i s :: t0 :: ts);
                  max_score := max_score st |}
          else st)) /\
  (exists (N : PyNumber) (O : Oracles) s score_ns i j t0 ts,
     let n := len s in
     let threshold := py_max (score s) score_ns in
     i < j /\ j < n /\
     case1 threshold (slice 0 i s) (slice i n s) = true /\
     case2 threshold (slice 0 j s) (slice j n s) = true /\
     rounds (scan_body same_case_split s score_ns threshold n) (seq 0 j)
       scan_start
     = Ret {| split := Some [slice 0 i s; slice i n s];
              max_score :=
                add (score (slice 0 i s)) (score (slice i n s)) |} /\
     same_case_split (slice j n s) score_ns = Ret (t0 :: ts) /\
     t0 <> slice j n s /\
     same_case_split s score_ns = Ret (slice 0 j s :: t0 :: ts)).
Proof.
  split; [|split].
  - intros; now apply scan_body_case1.
  - intros; now apply scan_body_case2.
  - exists QNumber, ExampleOracles, "abcxqfg", zero, 2, 3, "xq", ["fg"].
    cbv zeta. split; [lia|]. split; [unfold len; simpl; lia|].
    repeat split; try (vm_compute; reflexivity).
    discriminate.
Qed.

(** The rounded roots of the rational model on a few values. *)
Example rounded_roots :
  Qeq (qpow_half hundred) (inject_Z 10) /\
  Qeq (qpow_two_fifths (inject_Z 1024)) (inject_Z 16) /\
  Qlt (6309 # 1000) (qpow_two_fifths hundred) /\
  Qlt (qpow_two_fifths hundred) (6310 # 1000) /\
  Qeq (qpow_half zero) zero /\ Qeq (qpow_two_fifths zero) zero.
Proof. repeat split; vm_compute; reflexivity. Qed.

(** The only cut of [unxq] with two strong pieces has the prefix [un] on
    its left: the token is returned whole. *)
Example affix_suppression_run :
  to_split zero "un" = true /\ to_split zero "xq" = true /\
  is_prefix "un" = true /\
  same_case_split "unxq" zero = Ret ["unxq"].
Proof. repeat split; vm_compute; reflexivity. Qed.

(** End-to-end on the example configuration. *)
Example samurai_split_run :
  samurai_split "abcxqfg" = Ret ["abc"; "xq"; "fg"] /\
  samurai_split "getMax" = Ret ["getM"; "ax"] /\
  rescale "ab" (inject_Z (-100)) = Raise ValueError.
Proof. repeat split; vm_compute; reflexivity. Qed.

(** C5 at the dictionary word [max]. *)
Lemma same_case_split_base_cases_witness :
  (len "max" < 2 \/ (1 < len "max" /\ in_dictionary "max" = true)) /\
  same_case_split "max" zero = Ret ["max"].
Proof.
  assert (H : len "max" < 2 \/ (1 < len "max" /\ in_dictionary "max" = true)).
  { right. split; [unfold len; simpl; lia | reflexivity]. }
  split; [exact H | exact (same_case_split_base_cases "max" zero H)].
Defined.

(** C6 as stated fails at the token [ab]: the cut at index [len(s) = 2],
    with the empty right piece, is not among the cuts of the scan. *)
Lemma empty_right_cut_not_examined :
  len "ab" = 2 /\ in_dictionary "ab" = false /\
  slice_from (len "ab") "ab" = EmptyString /\
  exists cuts,
    examined_cuts "ab" = Ret cuts /\
    ~ In (slice 0 (len "ab") "ab", slice_from (len "ab") "ab") cuts.
Proof.
  repeat split.
  exists [(EmptyString, "ab"); ("a", "b")]. split; [reflexivity|].
  simpl. intros [H | [H | []]]; discriminate.
Qed.

(** C7 at [getMax]: the transition [Ma] is at index 3, both numbers are
    0, and the capital goes with the piece before it. *)
Lemma case_transition_tie_break_witness :
  re_search_upper_lower "getMax" = Some 3 /\ 0 < 3 /\
  num_eq (score (slice_from 3 "getMax")) zero /\
  rescale (slice_from 4 "getMax") (score (slice_from 4 "getMax"))
  = Ret (qpow_half zero) /\
  case_transition_parts "getMax" = Ret ["getM"; "ax"].
Proof.
  assert (Hsearch : re_search_upper_lower "getMax" = Some 3) by reflexivity.
  assert (Hpos : 0 < 3) by lia.
  destruct (case_transition_tie_break "getMax" 3 Hsearch Hpos)
    as (r & Hr & _ & Helse & _).
  split; [exact Hsearch|]. split; [exact Hpos|].
  split; [split; reflexivity|]. split; [reflexivity|].
  apply Helse. vm_compute in Hr. inversion Hr; subst r. reflexivity.
Defined.

(** C9 at [xqfg], which splits in [xq] and [fg]. *)
Lemma no_short_fragments_witness :
  same_case_split "xqfg" zero = Ret ["xq"; "fg"] /\
  ["xq"; "fg"] <> ["xqfg"] /\
  Forall (fun t => 2 <= len t) ["xq"; "fg"].
Proof.
  assert (Hrun : same_case_split "xqfg" zero = Ret ["xq"; "fg"])
    by (vm_compute; reflexivity).
  assert (Hne : ["xq"; "fg"] <> ["xqfg"]) by discriminate.
  split; [exact Hrun|]. split; [exact Hne|].
  exact (no_short_fragments "xqfg" zero ["xq"; "fg"] Hrun Hne).
Defined.

(** C10 as amended, at the ASCII string [ABCxqFG] and the example
    table, which lower-cases its argument. *)
Lemma same_case_split_case_agnostic_ascii_witness :
  (forall w, word_frequency (lower w) = word_frequency w) /\
  is_ascii "ABCxqFG" = true /\
  exists r,
    same_case_split "ABCxqFG" zero = Ret r /\
    same_case_split (lower "ABCxqFG") zero = Ret (map lower r).
Proof.
  assert (Hascii : is_ascii "ABCxqFG" = true) by reflexivity.
  split; [exact freq_table_lower|]. split; [exact Hascii|].
  destruct (@same_case_split_case_agnostic_ascii QNumber ExampleOracles
              freq_table_lower "ABCxqFG" zero Hascii) as (_ & _ & Hsplit).
  exact Hsplit.
Defined.

(** C1 at [abcxqfg]. *)
Lemma split_preserves_characters_witness :
  concat_tokens (simple_split "abcxqfg") = "abcxqfg" /\
  exists r, samurai_split "abcxqfg" = Ret r /\ concat_tokens r = "abcxqfg".
Proof.
  assert (Hseg : concat_tokens (simple_split "abcxqfg") = "abcxqfg")
    by reflexivity.
  split; [exact Hseg|].
  destruct (split_preserves_characters "abcxqfg" zero "abcxqfg")
    as (_ & r & Hrun & _ & Hid).
  exists r. split; [exact Hrun | exact (Hid Hseg)].
Defined.

(** C2 at [abcxqfg]: Case 2 holds at index 3, and a run with fuel 7
    returns. *)
Lemma same_case_split_terminates_witness :
  case2 (py_max (score "abcxqfg") zero) (slice 0 3 "abcxqfg")
    (slice 3 (len "abcxqfg") "abcxqfg") = true /\
  2 <= 3 /\
  len (slice 3 (len "abcxqfg") "abcxqfg") < len "abcxqfg" /\
  exists r, same_case_split_fuel 7 "abcxqfg" zero = Ret r.
Proof.
  destruct (same_case_split_terminates "abcxqfg" zero)
    as (_ & Hcase2 & _ & Htotal).
  assert (Hc : case2 (py_max (score "abcxqfg") zero) (slice 0 3 "abcxqfg")
                 (slice 3 (len "abcxqfg") "abcxqfg") = true)
    by (vm_compute; reflexivity).
  split; [exact Hc|].
  destruct (Hcase2 3 Hc) as [H2 Hshorter].
  split; [exact H2|]. split; [exact Hshorter|].
  destruct (Htotal 7) as (r & Hr & _);
    [lia | unfold len; simpl; lia | exists r; exact Hr].
Defined.

(** C4 at [unxq]: the left piece clears the threshold at the cut
    [un | xq] alone, where it is a listed prefix. *)
Lemma affix_suppression_witness :
  (forall i, i < len "unxq" ->
     to_split (py_max (score "unxq") zero) (slice 0 i "unxq") = true ->
     is_prefix (slice 0 i "unxq") = true \/
     is_suffix (slice i (len "unxq") "unxq") = true) /\
  same_case_split "unxq" zero = Ret ["unxq"].
Proof.
  assert (Hall : forall i, i < len "unxq" ->
     to_split (py_max (score "unxq") zero) (slice 0 i "unxq") = true ->
     is_prefix (slice 0 i "unxq") = true \/
     is_suffix (slice i (len "unxq") "unxq") = true).
  { intros i Hi Hstrong.
    destruct i as [|[|[|[|i]]]];
      try (vm_compute in Hstrong; discriminate).
    - left. reflexivity.
    - unfold len in Hi; simpl in Hi; lia. }
  split; [exact Hall|].
  destruct (affix_suppression "unxq" zero) as (_ & _ & Hwhole).
  exact (Hwhole Hall).
Defined.

(** C6 as amended, at [ab]. *)
Lemma scan_examines_cuts_witness :
  examined_cuts "ab" = Ret [(EmptyString, "ab"); ("a", "b")] /\
  hd_error [(EmptyString, "ab"); ("a", "b")] = Some (EmptyString, "ab") /\
  "b" <> EmptyString.
Proof.
  destruct (scan_examines_cuts "ab" zero) as (Hcuts & _ & _ & _ & Hends).
  split; [exact Hcuts|].
  destruct (Hends _ Hcuts) as [Hfirst Hright].
  split.
  - apply Hfirst. unfold len; simpl; lia.
  - apply (Hright "a" "b"). right. left. reflexivity.
Defined.

(** C8 at the dictionary word [ax] and the score 100; at the
    five-letter token [cxqfg]. *)
Lemma rescale_cases_witness :
  ltb hundred (of_Z 0) = false /\
  rescale "ax" hundred = Ret (pow_half hundred) /\
  rescale "cxqfg" hundred = Ret (pow_two_fifths hundred).
Proof.
  assert (Hnonneg : ltb hundred (of_Z 0) = false) by reflexivity.
  split; [exact Hnonneg|]. split.
  - destruct (rescale_cases "ax" hundred) as (_ & Hscore & _).
    destruct (Hscore Hnonneg) as [Hhalf _].
    apply Hhalf; [unfold len; simpl; lia | reflexivity].
  - destruct (rescale_cases "cxqfg" hundred) as (_ & Hscore & _).
    destruct (Hscore Hnonneg) as [_ Hother].
    apply Hother; [unfold len; simpl; lia | left; unfold len; simpl; lia].
Defined.

(** ** Concrete runs of the further properties *)

(** [>=] on the rationals is transitive. *)
Lemma qlt_weak (x y z : Q) :
  qlt x y = false -> qlt y z = false -> qlt x z = false.
Proof.
  unfold qlt. intros Hxy Hyz.
  apply Z.ltb_ge. apply Z.ltb_ge in Hxy, Hyz.
  exact (Qle_trans z y x Hyz Hxy).
Qed.

(** X4 at [Max]: the transition is at index 0, both numbers are 0, and
    the capital is split off. *)
Lemma case_transition_at_start_witness :
  re_search_upper_lower "Max" = Some 0 /\
  case_transition_parts "Max" = Ret ["M"; "ax"].
Proof.
  assert (Hsearch : re_search_upper_lower "Max" = Some 0) by reflexivity.
  split; [exact Hsearch|].
  destruct (case_transition_at_start "Max" Hsearch) as (r & Hr & Hparts & _).
  rewrite Hparts. vm_compute in Hr. inversion Hr; subst r. reflexivity.
Defined.

(** X7 at [abcxqfg]. *)
Lemma samurai_split_no_empty_token_witness :
  Forall (fun seg => seg <> EmptyString) (simple_split "abcxqfg") /\
  exists r, samurai_split "abcxqfg" = Ret r /\
            Forall (fun t => t <> EmptyString) r.
Proof.
  assert (Hsegs : Forall (fun seg => seg <> EmptyString)
                    (simple_split "abcxqfg")).
  { constructor; [discriminate | constructor]. }
  split; [exact Hsegs|].
  exact (samurai_split_no_empty_token "abcxqfg" Hsegs).
Defined.

(** X8 at the dictionary word [max]. *)
Lemma samurai_split_atomic_segments_witness :
  (forall seg, In seg (simple_split "max") ->
     re_search_upper_lower seg = None /\
     (len seg < 2 \/ in_dictionary seg = true)) /\
  samurai_split "max" = Ret ["max"].
Proof.
  assert (Hsegs : forall seg, In seg (simple_split "max") ->
            re_search_upper_lower seg = None /\
            (len seg < 2 \/ in_dictionary seg = true)).
  { intros seg [<- | []]. split; [reflexivity | right; reflexivity]. }
  split; [exact Hsegs|].
  exact (samurai_split_atomic_segments "max" Hsegs).
Defined.

(** X10 at [abxq]: the cut [ab | xq] is the only Case-1 cut, and Case 2
    holds nowhere. *)
Lemma best_case1_cut_witness :
  2 <= len "abxq" /\ in_dictionary "abxq" = false /\
  (forall i, i < len "abxq" ->
     case2 (py_max (score "abxq") zero) (slice 0 i "abxq")
       (slice i (len "abxq") "abxq") = false) /\
  same_case_split "abxq" zero = Ret ["ab"; "xq"].
Proof.
  assert (Hlen : 2 <= len "abxq") by (unfold len; simpl; lia).
  assert (Hdict : in_dictionary "abxq" = false) by reflexivity.
  assert (Hno2 : forall i, i < len "abxq" ->
            case2 (py_max (score "abxq") zero) (slice 0 i "abxq")
              (slice i (len "abxq") "abxq") = false).
  { intros i Hi. destruct i as [|[|[|[|i]]]];
      try (vm_compute; reflexivity).
    unfold len in Hi; simpl in Hi; lia. }
  split; [exact Hlen|]. split; [exact Hdict|]. split; [exact Hno2|].
  destruct (best_case1_cut "abxq" zero Hlen Hdict Hno2)
    as [[Hwhole _] | (k & Hk & _ & Hcut & _)].
  - vm_compute in Hwhole. discriminate.
  - rewrite Hcut. destruct k as [|[|[|[|k]]]];
      try (vm_compute in Hcut; discriminate).
    reflexivity.
Defined.

(** X11 at [abcxqfg], which splits in [abc], [xq] and [fg]. *)
Lemma same_case_split_tail_witness :
  same_case_split "abcxqfg" zero = Ret ["abc"; "xq"; "fg"] /\
  2 <= List.length ["xq"; "fg"] /\
  same_case_split (concat_tokens ["xq"; "fg"]) zero = Ret ["xq"; "fg"].
Proof.
  assert (Hrun : same_case_split "abcxqfg" zero = Ret ["abc"; "xq"; "fg"])
    by (vm_compute; reflexivity).
  assert (Hrest : 2 <= List.length ["xq"; "fg"]) by (simpl; lia).
  split; [exact Hrun|]. split; [exact Hrest|].
  exact (same_case_split_tail "abcxqfg" zero "abc" ["xq"; "fg"] Hrun Hrest).
Defined.

(** X12 at [argv], none of whose prefixes is in the table. *)
Lemma same_case_split_unknown_prefixes_witness :
  (forall x y z : num, ltb x y = false -> ltb y z = false ->
                       ltb x z = false) /\
  (forall i, 0 < i < len "argv" ->
     ltb (word_frequency (slice 0 i "argv")) (of_Z 30) = true) /\
  same_case_split "argv" zero = Ret ["argv"].
Proof.
  assert (Hrare : forall i, 0 < i < len "argv" ->
            ltb (word_frequency (slice 0 i "argv")) (of_Z 30) = true).
  { intros i Hi. destruct i as [|[|[|[|i]]]]; reflexivity. }
  split; [exact qlt_weak|]. split; [exact Hrare|].
  exact (same_case_split_unknown_prefixes "argv" zero qlt_weak Hrare).
Defined.

(** ** Lower-casing outside ASCII *)

(** On the strings of the ASCII model, [Unicode.lower] is [lower]. *)
Lemma unicode_lower_of_ascii (s : string) :
  Unicode.lower (Unicode.of_ascii s) = Unicode.of_ascii (lower s).
Proof.
  induction s as [|c s IH]; [reflexivity|].
  change (Unicode.lower (Unicode.of_ascii (String c s)))
    with (Unicode.lower_char (N_of_ascii c)
          ++ Unicode.lower (Unicode.of_ascii s))%list.
  rewrite IH.
  change (Unicode.of_ascii (lower (String c s)))
    with (N_of_ascii (lower_char c) :: Unicode.of_ascii (lower s)).
  replace (Unicode.lower_char (N_of_ascii c))
    with [N_of_ascii (lower_char c)]; [reflexivity|].
  destruct c as [[] [] [] [] [] [] [] []]; vm_compute; reflexivity.
Qed.

Lemma unicode_lower_char_idem (c : N) :
  flat_map Unicode.lower_char (Unicode.lower_char c) = Unicode.lower_char c.
Proof.
  unfold Unicode.lower_char at 2 3.
  destruct ((65 <=? c)%N && (c <=? 90)%N) eqn:Hupper.
  - apply andb_prop in Hupper as [Hlo Hhi].
    apply N.leb_le in Hlo, Hhi.
    cbn [flat_map]. rewrite app_nil_r. unfold Unicode.lower_char.
    replace ((c + 32 <=? 90)%N) with false
      by (symmetry; apply N.leb_gt; lia).
    rewrite andb_false_r.
    replace ((c + 32 =? 304)%N) with false
      by (symmetry; apply N.eqb_neq; lia).
    reflexivity.
  - destruct (c =? 304)%N eqn:Hdotted; [reflexivity|].
    cbn [flat_map]. rewrite app_nil_r. unfold Unicode.lower_char.
    now rewrite Hupper, Hdotted.
Qed.

Lemma unicode_lower_idem (s : Unicode.str) :
  Unicode.lower (Unicode.lower s) = Unicode.lower s.
Proof.
  unfold Unicode.lower. induction s as [|c s IH]; [reflexivity|].
  cbn [flat_map]. rewrite flat_map_app, IH.
  now rewrite unicode_lower_char_idem.
Qed.

(** C10 as stated fails at the string [abİ] ([ab] and U+0130), whose
    lower-casing [abi̇] has four code points.  With a case-insensitive
    frequency table that knows [ab] and [i̇], an empty dictionary and
    [score_ns = 0], [abİ] is returned whole (its right piece [İ] is a
    single character), and its lower-casing is split in [ab] and [i̇]:
    not the lower-cased tokens of the first result. *)
Lemma lower_case_variant_splits_differently :
  (forall w, Unicode.word_frequency (Unicode.lower w)
             = Unicode.word_frequency w) /\
  Unicode.lower Unicode.ab_dotted_I
  = (Unicode.of_ascii "ab" ++ [105%N; 775%N])%list /\
  Unicode.same_case_split Unicode.ab_dotted_I Example.zero
  = Ret [Unicode.ab_dotted_I] /\
  Unicode.same_case_split (Unicode.lower Unicode.ab_dotted_I) Example.zero
  = Ret [Unicode.of_ascii "ab"; [105%N; 775%N]] /\
  Unicode.same_case_split (Unicode.lower Unicode.ab_dotted_I) Example.zero
  <> Ret (map Unicode.lower [Unicode.ab_dotted_I]).
Proof.
  split; [|split; [|split; [|split]]].
  - intros w. cbn [Unicode.word_frequency Unicode.ExampleOracles].
    unfold Unicode.freq_table. now rewrite unicode_lower_idem.
  - reflexivity.
  - vm_compute. reflexivity.
  - vm_compute. reflexivity.
  - vm_compute. discriminate.
Qed.
